(** * Paraxial optics engine (sim/js/optics.js)

    A shallow embedding of the classes [Ray], [Lens] and [OpticalSystem]
    of [optics.js], and the properties of ray tracing, of the ABCD system
    matrix and of the quantities derived from it; then of their callers:
    ray generation, the update cycle, the add-lens button and the zoom of
    [main.js], and the coordinate transforms of [render.js].

    Numbers.  The engine computes with JavaScript numbers and uses only
    [+], [-], [*], [/], [Math.abs] and comparisons.  Here a finite number is
    an exact rational ([Q]): every finite double is a rational, the
    operations are the exact ones (no rounding, no overflow, no NaN), and
    equality of numbers is [Qeq] ([==]).  The value [Infinity], which the
    engine returns as a sentinel, is a constructor of its own ([Num]).
    A division by zero, which gives [Infinity] or [NaN] in JavaScript, has
    the value [0] in [Q]: the embedding follows the engine on the lenses
    that keep the invariant of the data model, a non-zero focal length, and
    the properties that rest on the value of a quotient state it.

    Lenses.  [new Lens(f, z, h)] parses its arguments and draws a random
    [id]; here a lens is the record of the parsed numbers and of its [id].

    Objects.  Every method that mutates [this] (or its argument) is a
    function returning the new state. *)

From Stdlib Require Import QArith Qabs Qfield Lqa.
From Stdlib Require Import List Bool Arith Lia Permutation Sorted.
Import ListNotations.

Open Scope Q_scope.

(** ** Numbers *)

(** [a < b] and [a > b] on numbers, as booleans. *)
Definition Qltb (a b : Q) : bool := negb (Qle_bool b a).
Definition Qgtb (a b : Q) : bool := Qltb b a.

(** The literals [1e-9] and [1e-10]. *)
Definition tol9 : Q := 1 # 1000000000.
Definition tol10 : Q := 1 # 10000000000.

(** A JavaScript number that is either finite or [Infinity]. *)
Inductive Num : Type :=
| Fin (q : Q)
| Infinity.

(** [a + b] and [a - b] where the left operand may be [Infinity] and the
    right one is finite, or the other way round for the sum. *)
Definition num_add_l (a : Q) (b : Num) : Num :=
  match b with
  | Fin q => Fin (a + q)
  | Infinity => Infinity
  end.

Definition num_sub_r (a : Num) (b : Q) : Num :=
  match a with
  | Fin q => Fin (q - b)
  | Infinity => Infinity
  end.

(** ** A sample [{z, y}] of a ray's path *)
Module Point.
Record t : Type := mk { z : Q; y : Q }.
End Point.

(** ** class Ray *)
Module Ray.

Record t : Type := mk {
  z : Q;                 (* axial position *)
  y : Q;                 (* height *)
  u : Q;                 (* angle (slope) *)
  path : list Point.t;   (* the path, oldest sample first *)
  active : bool          (* still propagating? *)
}.

(** [new Ray(z, y, u)] *)
Definition constructor (z y u : Q) : t :=
  mk z y u [Point.mk z y] true.

(** [propagate(newZ)] *)
Definition propagate (this : t) (newZ : Q) : t :=
  if negb (active this) then this
  else
    let d := newZ - z this in
    let y' := y this + u this * d in
    mk newZ y' (u this) (path this ++ [Point.mk newZ y']) (active this).

(** [refract(f)] *)
Definition refract (this : t) (f : Q) : t :=
  if negb (active this) then this
  else mk (z this) (y this) (u this - y this / f) (path this) (active this).

(** [stop()] *)
Definition stop (this : t) : t :=
  mk (z this) (y this) (u this) (path this) false.

(** A method call on a ray, and a sequence of calls. *)
Inductive op : Type :=
| Propagate (newZ : Q)
| Refract (f : Q)
| Stop.

Definition call (this : t) (o : op) : t :=
  match o with
  | Propagate newZ => propagate this newZ
  | Refract f => refract this f
  | Stop => stop this
  end.

Definition calls (this : t) (os : list op) : t := fold_left call os this.

(** The class invariant: the path is non-empty and its last sample is the
    ray's current [(z, y)]. *)
Definition inv (r : t) : Prop :=
  exists front, path r = front ++ [Point.mk (z r) (y r)].

End Ray.

(** ** class Lens *)
Module Lens.

Record t : Type := mk {
  f : Q;    (* focal length *)
  z : Q;    (* position *)
  h : Q;    (* height (radius of aperture) *)
  id : nat  (* opaque identifier *)
}.

(** Placeholder returned by an array read; every read below is in range. *)
Definition none : t := mk 0 0 0 0.

End Lens.

(** The 2x2 matrix [(A B; C D)]. *)
Module Matrix.

Record t : Type := mk { A : Q; B : Q; C : Q; D : Q }.

Definition identity : t := mk 1 0 0 1.

(** The matrix product [m * n]. *)
Definition mul (m n : t) : t :=
  mk (A m * A n + B m * C n) (A m * B n + B m * D n)
     (C m * A n + D m * C n) (C m * B n + D m * D n).

(** Refraction at a thin lens of focal length [f], and translation by [d]. *)
Definition refraction (f : Q) : t := mk 1 0 (- (1 / f)) 1.
Definition translation (d : Q) : t := mk 1 d 0 1.

(** Equality of matrices, entry by entry. *)
Definition eq (m n : t) : Prop :=
  A m == A n /\ B m == B n /\ C m == C n /\ D m == D n.

Definition det (m : t) : Q := A m * D m - B m * C m.

(** The matrix applied to the ray state [(y, u)]. *)
Definition apply (m : t) (y u : Q) : Q * Q :=
  (A m * y + B m * u, C m * y + D m * u).

End Matrix.

(** ** class OpticalSystem *)
Module OpticalSystem.

Record t : Type := mk { lenses : list Lens.t }.

(** [this.lenses[i]] *)
Definition lens_at (this : t) (i : nat) : Lens.t := nth i (lenses this) Lens.none.

(** The comparator [(a, b) => a.z - b.z] of [sortLenses]. *)
Definition compareFn (a b : Lens.t) : Q := Lens.z a - Lens.z b.

(** [Array.prototype.sort] with a comparator is a stable sort; with a
    comparator that is a total preorder, as [compareFn] is, its result is
    the one of stable insertion. *)
Fixpoint insert (l : Lens.t) (ls : list Lens.t) : list Lens.t :=
  match ls with
  | [] => [l]
  | x :: xs =>
      if Qle_bool (compareFn l x) 0 then l :: x :: xs
      else x :: insert l xs
  end.

Definition sort (ls : list Lens.t) : list Lens.t := fold_right insert [] ls.

(** [sortLenses()] *)
Definition sortLenses (this : t) : t := mk (sort (lenses this)).

(** [addLens(f, z, h = 50)], with the [id] that the new lens draws: the
    system and the lens returned.  [None] for [h] is the omitted argument. *)
Definition addLens (this : t) (f z : Q) (h : option Q) (id : nat)
  : t * Lens.t :=
  let h := match h with Some h => h | None => 50 end in
  let lens := Lens.mk f z h id in
  (sortLenses (mk (lenses this ++ [lens])), lens).

(** [removeLens(id)] *)
Definition removeLens (this : t) (id : nat) : t :=
  mk (filter (fun l => negb (Lens.id l =? id)%nat) (lenses this)).

(** How one iteration of the [for] loop of [traceRay] ends. *)
Inductive flow : Type := Continue | Break.

(** The body of the loop of [traceRay], for one lens. *)
Definition traceBody (lens : Lens.t) (ray : Ray.t) : Ray.t * flow :=
  if Qgtb (Ray.z ray) (Lens.z lens + tol9) then (ray, Continue)
  else
    let ray1 := Ray.propagate ray (Lens.z lens) in
    if Qgtb (Qabs (Ray.y ray1)) (Lens.h lens) then (Ray.stop ray1, Break)
    else (Ray.refract ray1 (Lens.f lens), Continue).

(** [for (const lens of this.lenses) { ... }] *)
Fixpoint traceLoop (ls : list Lens.t) (ray : Ray.t) : Ray.t :=
  match ls with
  | [] => ray
  | lens :: rest =>
      match traceBody lens ray with
      | (ray', Break) => ray'
      | (ray', Continue) => traceLoop rest ray'
      end
  end.

(** [traceRay(ray)]: the system (its lenses now sorted) and the ray. *)
Definition traceRay (this : t) (ray : Ray.t) : t * Ray.t :=
  let this1 := sortLenses this in
  let ray1 := traceLoop (lenses this1) ray in
  let ray2 :=
    if Ray.active ray1 then
      let lastLensZ :=
        if (0 <? length (lenses this1))%nat
        then Lens.z (lens_at this1 (length (lenses this1) - 1))
        else Ray.z ray1 in
      Ray.propagate ray1 (lastLensZ + 1000)
    else ray1 in
  (this1, ray2).

(** One iteration, for index [i], of the loop of [calculateSystemMatrix]. *)
Definition matrixBody (this : t) (m : Matrix.t) (i : nat) : Matrix.t :=
  let lens := lens_at this i in
  let m1 :=
    if (0 <? i)%nat then
      let d := Lens.z lens - Lens.z (lens_at this (i - 1)) in
      Matrix.mk (Matrix.A m + d * Matrix.C m) (Matrix.B m + d * Matrix.D m)
                (Matrix.C m) (Matrix.D m)
    else m in
  let power := - (1) / Lens.f lens in
  Matrix.mk (Matrix.A m1) (Matrix.B m1)
            (power * Matrix.A m1 + Matrix.C m1)
            (power * Matrix.B m1 + Matrix.D m1).

(** [calculateSystemMatrix()]; [None] is [null]. *)
Definition calculateSystemMatrix (this : t) : option Matrix.t :=
  if (length (lenses this) =? 0)%nat then None
  else Some (fold_left (matrixBody this) (seq 0 (length (lenses this)))
                       Matrix.identity).

Record CardinalPoints : Type := mkCardinalPoints {
  efl : Num; bfl : Num; H : Q; H_prime : Q; F_prime : Num
}.

(** [calculateCardinalPoints()] *)
Definition calculateCardinalPoints (this : t) : option CardinalPoints :=
  match calculateSystemMatrix this with
  | None => None
  | Some m =>
      let C := Matrix.C m in
      let power := - C in
      let efl := if Qltb (Qabs power) tol10 then Infinity else Fin (1 / power) in
      let firstLensZ := Lens.z (lens_at this 0) in
      let lastLensZ := Lens.z (lens_at this (length (lenses this) - 1)) in
      let dH := if Qltb (Qabs C) tol10 then 0 else (Matrix.D m - 1) / C in
      let H := firstLensZ + dH in
      let dH_prime := if Qltb (Qabs C) tol10 then 0 else (1 - Matrix.A m) / C in
      let H_prime := lastLensZ + dH_prime in
      let F_prime := num_add_l H_prime efl in
      let bfl := num_sub_r F_prime lastLensZ in
      Some (mkCardinalPoints efl bfl H H_prime F_prime)
  end.

Record Image : Type := mkImage { z : Num; mag : Num; isVirtual : bool }.

(** [calculateImage(objectZ)] *)
Definition calculateImage (this : t) (objectZ : Q) : option Image :=
  if (length (lenses this) =? 0)%nat then None
  else
    match calculateSystemMatrix this with
    | None => None
    | Some m =>
        let firstLensZ := Lens.z (lens_at this 0) in
        let lastLensZ := Lens.z (lens_at this (length (lenses this) - 1)) in
        let d_o := firstLensZ - objectZ in
        let numerator := Matrix.A m * d_o + Matrix.B m in
        let denominator := Matrix.C m * d_o + Matrix.D m in
        if Qltb (Qabs denominator) tol10 then
          Some (mkImage Infinity Infinity false)
        else
          let d_i := - numerator / denominator in
          let imageZ := lastLensZ + d_i in
          let mag := Matrix.A m + d_i * Matrix.C m in
          Some (mkImage (Fin imageZ) (Fin mag) (Qltb d_i 0))
    end.

End OpticalSystem.

(** ** The system matrix as the specification words it *)
Module Spec.

(** The elements met after the lens [prev], from object side to image
    side: for each further lens the translation over the gap from the
    lens before it, then the refraction at the lens. *)
Fixpoint elements_from (prev : Lens.t) (rest : list Lens.t) : list Matrix.t :=
  match rest with
  | [] => []
  | l :: rest' =>
      Matrix.translation (Lens.z l - Lens.z prev)
        :: Matrix.refraction (Lens.f l) :: elements_from l rest'
  end.

(** No translation before the first lens or after the last. *)
Definition elements (ls : list Lens.t) : list Matrix.t :=
  match ls with
  | [] => []
  | l :: rest => Matrix.refraction (Lens.f l) :: elements_from l rest
  end.

(** Each new element's matrix left-multiplies the running product. *)
Definition compose (es : list Matrix.t) : Matrix.t :=
  fold_left (fun running e => Matrix.mul e running) es Matrix.identity.

Definition systemMatrix (ls : list Lens.t) : Matrix.t := compose (elements ls).

End Spec.

(** Lenses in ascending order of position. *)
Definition ascending (ls : list Lens.t) : Prop :=
  StronglySorted (fun a b => Lens.z a <= Lens.z b) ls.

(** The lenses at the position [z0]. *)
Definition lenses_at (z0 : Q) (ls : list Lens.t) : list Lens.t :=
  filter (fun l => Qeq_bool (Lens.z l) z0) ls.

(** The axial positions of a path, oldest first. *)
Definition path_zs (r : Ray.t) : list Q := map Point.z (Ray.path r).

(** Each position of the list is at least the one before it minus [eps]. *)
Fixpoint forward_within (eps : Q) (zs : list Q) : Prop :=
  match zs with
  | [] => True
  | a :: rest =>
      match rest with
      | [] => True
      | b :: _ => a - eps <= b /\ forward_within eps rest
      end
  end.

(** Monotonically non-decreasing. *)
Definition nondecreasing (zs : list Q) : Prop := forward_within 0 zs.

(** The ray [r'] is the ray [r] brought to the plane of [lens]: it is at the
    lens's position and its path is the one of [r] and one more sample, at
    that position. *)
Definition reaches (lens : Lens.t) (r r' : Ray.t) : Prop :=
  Ray.z r' = Lens.z lens /\
  Ray.path r' = Ray.path r ++ [Point.mk (Lens.z lens) (Ray.y r')].

(** ** class Renderer (render.js): the viewport and its coordinate transforms

    Of the fields of a Renderer the transforms read the viewport state only:
    [scale] (pixels per unit), [offsetX] and [offsetY]. *)
Module Renderer.

Record t : Type := mk { scale : Q; offsetX : Q; offsetY : Q }.

(** A canvas position [{x, y}]. *)
Record CanvasPoint : Type := mkCanvasPoint { x : Q; y : Q }.

(** [toCanvas(z, y)] *)
Definition toCanvas (this : t) (z y : Q) : CanvasPoint :=
  mkCanvasPoint (offsetX this + z * scale this) (offsetY this - y * scale this).

(** [fromCanvas(x, y)] *)
Definition fromCanvas (this : t) (x y : Q) : Point.t :=
  Point.mk ((x - offsetX this) / scale this) ((offsetY this - y) / scale this).

End Renderer.

(** ** main.js: the state of the page, ray generation and the update cycle

    The effects on the page (the result panel, the lens list, the canvas)
    are left out; what is kept is the state they are computed from. *)
Module Main.

(** [state.object.mode]: ['point'] or ['infinity']. *)
Inductive Mode : Type := point | infinity.

(** [state.object] *)
Record Object : Type := mkObject {
  mode : Mode;
  z : Q;
  y : Q;
  angle : Q  (* for infinity mode *)
}.

(** [state]; [rayCount] is the value of the ray-count slider. *)
Record State : Type := mkState {
  object : Object;
  rayCount : nat;
  rays : list Ray.t
}.

(** [count > 1 ? i / (count - 1) : 0.5] *)
Definition fan (count i : nat) : Q :=
  if (1 <? count)%nat
  then inject_Z (Z.of_nat i) / inject_Z (Z.of_nat (count - 1))
  else 1 # 2.

Section Trigonometry.

(** [tan_deg a] stands for [Math.tan(a * (Math.PI / 180))], which has no
    rational value in general. *)
Variable tan_deg : Q -> Q.

(** [generateRays()]: the system, which it sorts, and the rays. *)
Definition generateRays (system : OpticalSystem.t) (state : State)
  : OpticalSystem.t * list Ray.t :=
  let count := rayCount state in
  if (length (OpticalSystem.lenses system) =? 0)%nat then (system, [])
  else
    let firstLens := OpticalSystem.lens_at system 0 in
    let system1 := OpticalSystem.sortLenses system in
    match mode (object state) with
    | point =>
        let zObj := z (object state) in
        let yObj := y (object state) in
        let zDist := Lens.z firstLens - zObj in
        if Qltb (Qabs zDist) (1 # 1000000) then (system1, [])
        else
          let h := Lens.h firstLens * (95 # 100) in
          let uMin := (- h - yObj) / zDist in
          let uMax := (h - yObj) / zDist in
          (system1,
           map (fun i =>
                  let t := fan count i in
                  let u := uMin + (uMax - uMin) * t in
                  Ray.constructor zObj yObj u)
               (seq 0 count))
    | infinity =>
        let u := tan_deg (angle (object state)) in
        let startZ := Lens.z firstLens - 200 in
        let h := Lens.h firstLens * (95 # 100) in
        (system1,
         map (fun i =>
                let t := fan count i in
                let targetY := - h + (2 * h) * t in
                let startY := targetY - u * (Lens.z firstLens - startZ) in
                Ray.constructor startZ startY u)
             (seq 0 count))
    end.

(** [state.rays.forEach(ray => system.traceRay(ray))] *)
Definition traceAll (system : OpticalSystem.t) (rays : list Ray.t)
  : OpticalSystem.t * list Ray.t :=
  fold_left
    (fun (acc : OpticalSystem.t * list Ray.t) ray =>
       let (system', ray') := OpticalSystem.traceRay (fst acc) ray in
       (system', snd acc ++ [ray']))
    rays (system, []).

(** What one [update()] leaves and hands on to the page. *)
Record Updated : Type := mkUpdated {
  system' : OpticalSystem.t;
  state' : State;
  results : option OpticalSystem.CardinalPoints;
  imageInfo : option OpticalSystem.Image
}.

(** [update()] *)
Definition update (system : OpticalSystem.t) (state : State) : Updated :=
  let (system1, generated) := generateRays system state in
  let (system2, traced) := traceAll system1 generated in
  let results := OpticalSystem.calculateCardinalPoints system2 in
  let imageInfo := OpticalSystem.calculateImage system2 (z (object state)) in
  mkUpdated system2 (mkState (object state) (rayCount state) traced)
            results imageInfo.

(** The click handler of the add-lens button, with the [id] that the new
    lens draws. *)
Definition addLensClick (system : OpticalSystem.t) (state : State) (id : nat)
  : OpticalSystem.t * State :=
  if (5 <=? length (OpticalSystem.lenses system))%nat then (system, state)
  else
    let newZ :=
      match nth_error (OpticalSystem.lenses system)
                      (length (OpticalSystem.lenses system) - 1) with
      | Some lastLens => Lens.z lastLens + 50
      | None => 0
      end in
    let system1 := fst (OpticalSystem.addLens system 100 newZ None id) in
    let updated := update system1 state in
    (system' updated, state' updated).

End Trigonometry.

(** The wheel handler's change of the viewport: [scale *= 1 + zoomSpeed] for
    [deltaY < 0], [scale *= 1 - zoomSpeed] otherwise, with
    [zoomSpeed = 0.1]. *)
Definition wheel (renderer : Renderer.t) (deltaY : Q) : Renderer.t :=
  let zoomSpeed := 1 # 10 in
  if Qltb deltaY 0
  then Renderer.mk (Renderer.scale renderer * (1 + zoomSpeed))
                   (Renderer.offsetX renderer) (Renderer.offsetY renderer)
  else Renderer.mk (Renderer.scale renderer * (1 - zoomSpeed))
                   (Renderer.offsetX renderer) (Renderer.offsetY renderer).

End Main.

(** ** Sample systems *)
Module Sample.

(** The two lenses that [main.js] starts with: [addLens(100, 0, 50)] and
    [addLens(100, 150, 50)]. *)
Definition lensA : Lens.t := Lens.mk 100 0 50 0.
Definition lensB : Lens.t := Lens.mk 100 150 50 1.
Definition demo : OpticalSystem.t := OpticalSystem.mk [lensA; lensB].

(** The matrix of [demo], as [calculateSystemMatrix] computes it. *)
Definition demoMatrix : Matrix.t :=
  Eval vm_compute in
    match OpticalSystem.calculateSystemMatrix demo with
    | Some m => m
    | None => Matrix.identity
    end.

(** Two matched lenses at the distance [f1 + f2 = 200]. *)
Definition lensC : Lens.t := Lens.mk 100 200 50 1.
Definition afocal : OpticalSystem.t := OpticalSystem.mk [lensA; lensC].

(** A single lens. *)
Definition single : OpticalSystem.t := OpticalSystem.mk [lensA].

(** The state that [main.js] starts with, and the same in infinity mode. *)
Definition pointState : Main.State :=
  Main.mkState (Main.mkObject Main.point (- (200)) 0 0) 10 [].
Definition parallelState : Main.State :=
  Main.mkState (Main.mkObject Main.infinity (- (200)) 0 0) 10 [].

(** The tangent, for the angle 0 of these states. *)
Definition tan0 : Q -> Q := fun _ => 0.

(** The viewport that a Renderer starts with, on a canvas of 800 by 600. *)
Definition viewport : Renderer.t := Renderer.mk 2 400 300.

End Sample.

(** * Properties *)

Import OpticalSystem.

(** ** Comparisons *)

Lemma Qltb_true (a b : Q) : Qltb a b = true <-> a < b.
Proof.
  unfold Qltb. rewrite negb_true_iff.
  split; intro Hab.
  - apply Qnot_le_lt. intro Hle. apply Qle_bool_iff in Hle. congruence.
  - destruct (Qle_bool b a) eqn:E; [|reflexivity].
    apply Qle_bool_iff in E. exfalso. exact (Qlt_not_le _ _ Hab E).
Qed.

Lemma Qltb_false (a b : Q) : Qltb a b = false <-> b <= a.
Proof.
  unfold Qltb. rewrite negb_false_iff. apply Qle_bool_iff.
Qed.

Lemma Qgtb_true (a b : Q) : Qgtb a b = true <-> b < a.
Proof. apply Qltb_true. Qed.

Lemma Qgtb_false (a b : Q) : Qgtb a b = false <-> a <= b.
Proof. apply Qltb_false. Qed.

(** ** The methods of Ray *)

Lemma propagate_inactive (r : Ray.t) (newZ : Q) :
  Ray.active r = false -> Ray.propagate r newZ = r.
Proof. intro Hr. unfold Ray.propagate. now rewrite Hr. Qed.

Lemma refract_inactive (r : Ray.t) (f : Q) :
  Ray.active r = false -> Ray.refract r f = r.
Proof. intro Hr. unfold Ray.refract. now rewrite Hr. Qed.

Lemma stop_inactive (r : Ray.t) :
  Ray.active r = false -> Ray.stop r = r.
Proof. destruct r as [z y u p a]. simpl. now intros ->. Qed.

Lemma propagate_active (r : Ray.t) (newZ : Q) :
  Ray.active r = true ->
  Ray.propagate r newZ =
  Ray.mk newZ (Ray.y r + Ray.u r * (newZ - Ray.z r)) (Ray.u r)
         (Ray.path r ++ [Point.mk newZ (Ray.y r + Ray.u r * (newZ - Ray.z r))])
         true.
Proof. intro Hr. unfold Ray.propagate. now rewrite Hr. Qed.

Lemma refract_active (r : Ray.t) (f : Q) :
  Ray.active r = true ->
  Ray.refract r f =
  Ray.mk (Ray.z r) (Ray.y r) (Ray.u r - Ray.y r / f) (Ray.path r) true.
Proof. intro Hr. unfold Ray.refract. now rewrite Hr. Qed.

Lemma call_inactive (r : Ray.t) (o : Ray.op) :
  Ray.active r = false -> Ray.call r o = r.
Proof.
  intro Hr. destruct o; simpl.
  - now apply propagate_inactive.
  - now apply refract_inactive.
  - now apply stop_inactive.
Qed.

Lemma calls_inactive (os : list Ray.op) (r : Ray.t) :
  Ray.active r = false -> Ray.calls r os = r.
Proof.
  unfold Ray.calls. induction os as [|o os IH]; intro Hr; simpl.
  - reflexivity.
  - rewrite (call_inactive r o Hr). now apply IH.
Qed.

(** C9: once [stop()] has been called, every later [propagate(targetZ)] and
    [refract(f)], for every argument, leaves the ray as it is ([z], [y],
    [u], [active] and [path] alike); and so does every sequence of later
    method calls, so the ray stays inactive for good. *)
Theorem stop_is_permanent (r : Ray.t) :
  Ray.active (Ray.stop r) = false /\
  (forall targetZ, Ray.propagate (Ray.stop r) targetZ = Ray.stop r) /\
  (forall f, Ray.refract (Ray.stop r) f = Ray.stop r) /\
  (forall os, Ray.calls (Ray.stop r) os = Ray.stop r).
Proof.
  split; [reflexivity|].
  split; [|split]; intros.
  - now apply propagate_inactive.
  - now apply refract_inactive.
  - now apply calls_inactive.
Qed.

(** C10: every operation of Ray keeps the invariant that the path is
    non-empty and ends with the ray's current [(z, y)]: the constructor
    establishes it; [propagate] on an active ray appends exactly one sample,
    the new [(z, y)]; [refract] and [stop] leave [z], [y] and the path as
    they are; and every operation on an inactive ray changes none of them. *)
Theorem ray_invariant :
  (forall z y u,
     Ray.inv (Ray.constructor z y u) /\
     Ray.path (Ray.constructor z y u) = [Point.mk z y]) /\
  (forall r newZ, Ray.active r = true ->
     Ray.path (Ray.propagate r newZ) =
       Ray.path r ++ [Point.mk (Ray.z (Ray.propagate r newZ))
                               (Ray.y (Ray.propagate r newZ))] /\
     Ray.z (Ray.propagate r newZ) = newZ /\
     Ray.y (Ray.propagate r newZ) = Ray.y r + Ray.u r * (newZ - Ray.z r)) /\
  (forall r f,
     Ray.path (Ray.refract r f) = Ray.path r /\
     Ray.z (Ray.refract r f) = Ray.z r /\ Ray.y (Ray.refract r f) = Ray.y r) /\
  (forall r,
     Ray.path (Ray.stop r) = Ray.path r /\
     Ray.z (Ray.stop r) = Ray.z r /\ Ray.y (Ray.stop r) = Ray.y r) /\
  (forall r o, Ray.active r = false -> Ray.call r o = r) /\
  (forall r o, Ray.inv r -> Ray.inv (Ray.call r o)).
Proof.
  split; [|split; [|split; [|split; [|split]]]].
  - intros z y u. split; [|reflexivity]. now exists [].
  - intros r newZ Hr. rewrite (propagate_active r newZ Hr). simpl. tauto.
  - intros r f. unfold Ray.refract. destruct (Ray.active r); simpl; tauto.
  - intros r. simpl. tauto.
  - exact call_inactive.
  - intros r o [front Hfront].
    destruct (Ray.active r) eqn:Hr.
    + destruct o as [newZ|f|]; simpl.
      * rewrite (propagate_active r newZ Hr). now exists (Ray.path r).
      * rewrite (refract_active r f Hr). now exists front.
      * now exists front.
    + rewrite (call_inactive r o Hr). now exists front.
Qed.

(** C8: with no lenses, [calculateSystemMatrix], [calculateCardinalPoints]
    and [calculateImage], for every [objectZ], return [null]. *)
Theorem empty_system_is_absent :
  calculateSystemMatrix (mk []) = None /\
  calculateCardinalPoints (mk []) = None /\
  (forall objectZ, calculateImage (mk []) objectZ = None).
Proof. repeat split. Qed.

(** ** The system matrix *)

Lemma matrix_eq_refl (m : Matrix.t) : Matrix.eq m m.
Proof. unfold Matrix.eq. repeat split; reflexivity. Qed.

Lemma matrix_eq_trans (m n p : Matrix.t) :
  Matrix.eq m n -> Matrix.eq n p -> Matrix.eq m p.
Proof.
  intros (HA & HB & HC & HD) (HA' & HB' & HC' & HD').
  unfold Matrix.eq. rewrite HA, HB, HC, HD. tauto.
Qed.

(** The first iteration refracts at the first lens. *)
Lemma matrixBody_first (this : t) (m m' : Matrix.t) :
  Matrix.eq m m' ->
  Matrix.eq (matrixBody this m 0)
            (Matrix.mul (Matrix.refraction (Lens.f (lens_at this 0))) m').
Proof.
  intros (HA & HB & HC & HD).
  unfold matrixBody, Matrix.eq, Matrix.mul, Matrix.refraction. simpl.
  rewrite HA, HB, HC, HD. unfold Qdiv.
  repeat split; ring.
Qed.

(** A later iteration translates over the gap from the lens before, then
    refracts. *)
Lemma matrixBody_next (this : t) (i : nat) (m m' : Matrix.t) :
  Matrix.eq m m' ->
  Matrix.eq (matrixBody this m (S i))
            (Matrix.mul (Matrix.refraction (Lens.f (lens_at this (S i))))
               (Matrix.mul
                  (Matrix.translation
                     (Lens.z (lens_at this (S i)) - Lens.z (lens_at this i)))
                  m')).
Proof.
  intros (HA & HB & HC & HD).
  unfold matrixBody, Matrix.eq, Matrix.mul, Matrix.refraction,
    Matrix.translation.
  replace (S i - 1)%nat with i by lia. simpl.
  rewrite HA, HB, HC, HD. unfold Qdiv.
  repeat split; ring.
Qed.

Lemma lens_at_app (pre : list Lens.t) (l : Lens.t) (rest : list Lens.t) :
  lens_at (mk (pre ++ l :: rest)) (length pre) = l.
Proof. unfold lens_at. simpl. now rewrite nth_middle. Qed.

(** The iterations after the lens [p] at index [length pre] compose the
    elements that follow [p]. *)
Lemma matrix_loop_elements (rest : list Lens.t) :
  forall (pre : list Lens.t) (p : Lens.t) (this : t) (m m' : Matrix.t),
    lenses this = pre ++ p :: rest ->
    Matrix.eq m m' ->
    Matrix.eq
      (fold_left (matrixBody this) (seq (S (length pre)) (length rest)) m)
      (fold_left (fun running e => Matrix.mul e running)
                 (Spec.elements_from p rest) m').
Proof.
  induction rest as [|l rest IH]; intros pre p this m m' Hls Hm.
  - exact Hm.
  - cbn [length seq fold_left Spec.elements_from].
    assert (Hp : lens_at this (length pre) = p).
    { destruct this as [ls]. simpl in Hls. subst ls. apply lens_at_app. }
    assert (Hls' : lenses this = (pre ++ [p]) ++ l :: rest).
    { rewrite Hls, <- app_assoc. reflexivity. }
    assert (Hl : lens_at this (S (length pre)) = l).
    { destruct this as [ls]. simpl in Hls'. subst ls.
      replace (S (length pre)) with (length (pre ++ [p]))
        by (rewrite length_app; simpl; lia).
      apply lens_at_app. }
    specialize (IH (pre ++ [p]) l this).
    replace (length (pre ++ [p])) with (S (length pre)) in IH
      by (rewrite length_app; simpl; lia).
    apply IH; [exact Hls'|].
    pose proof (matrixBody_next this (length pre) m m' Hm) as Hstep.
    rewrite Hl, Hp in Hstep. exact Hstep.
Qed.

(** [calculateSystemMatrix] returns a matrix exactly when there is a lens. *)
Lemma calculateSystemMatrix_some (this : t) :
  lenses this <> [] ->
  calculateSystemMatrix this =
  Some (fold_left (matrixBody this) (seq 0 (length (lenses this)))
                  Matrix.identity).
Proof.
  intro Hne. unfold calculateSystemMatrix.
  destruct (lenses this); [congruence|reflexivity].
Qed.

Lemma calculateSystemMatrix_spec (this : t) :
  lenses this <> [] ->
  exists m, calculateSystemMatrix this = Some m /\
            Matrix.eq m (Spec.systemMatrix (lenses this)).
Proof.
  intro Hne. rewrite (calculateSystemMatrix_some this Hne).
  eexists. split; [reflexivity|].
  destruct (lenses this) as [|l rest] eqn:Hls; [congruence|].
  unfold Spec.systemMatrix, Spec.compose.
  cbn [length seq fold_left Spec.elements].
  apply (matrix_loop_elements rest [] l this); [exact Hls|].
  pose proof (matrixBody_first this _ _ (matrix_eq_refl Matrix.identity)) as H0.
  replace (lens_at this 0) with l in H0
    by (unfold lens_at; now rewrite Hls).
  exact H0.
Qed.

(** C1: for a non-empty lens list in ascending order of position with every
    focal length non-zero, [calculateSystemMatrix] returns the matrix
    obtained by composing, from object side to image side, the refraction
    matrix [(1 0; -1/f 1)] of each lens and the translation matrix
    [(1 d; 0 1)] of each gap between consecutive lenses, every new element
    left-multiplying the running product, with no translation before the
    first lens or after the last. *)
Theorem calculateSystemMatrix_composes (this : t) :
  lenses this <> [] ->
  ascending (lenses this) ->
  Forall (fun l => ~ Lens.f l == 0) (lenses this) ->
  exists m, calculateSystemMatrix this = Some m /\
            Matrix.eq m (Spec.systemMatrix (lenses this)).
Proof.
  intros Hne _ _. now apply calculateSystemMatrix_spec.
Qed.

(** Every iteration keeps the determinant, so the system matrix has
    determinant one. *)
Lemma matrixBody_det (this : t) (m : Matrix.t) (i : nat) :
  Matrix.det (matrixBody this m i) == Matrix.det m.
Proof.
  unfold matrixBody, Matrix.det.
  destruct (0 <? i)%nat; simpl; unfold Qdiv; ring.
Qed.

Lemma matrix_loop_det (this : t) (ixs : list nat) :
  forall m, Matrix.det (fold_left (matrixBody this) ixs m) == Matrix.det m.
Proof.
  induction ixs as [|i ixs IH]; intro m; simpl.
  - reflexivity.
  - rewrite IH. apply matrixBody_det.
Qed.

Lemma calculateSystemMatrix_det (this : t) (m : Matrix.t) :
  calculateSystemMatrix this = Some m -> Matrix.det m == 1.
Proof.
  unfold calculateSystemMatrix.
  destruct (length (lenses this) =? 0)%nat; [discriminate|].
  intros [= <-]. rewrite matrix_loop_det. reflexivity.
Qed.

Lemma calculateSystemMatrix_length (this : t) (m : Matrix.t) :
  calculateSystemMatrix this = Some m ->
  (length (lenses this) =? 0)%nat = false.
Proof.
  unfold calculateSystemMatrix.
  destruct (length (lenses this) =? 0)%nat; [discriminate|reflexivity].
Qed.

Lemma Qabs_above_tol_nonzero (x : Q) : tol10 <= Qabs x -> ~ x == 0.
Proof.
  intros Hx H0. rewrite H0 in Hx. revert Hx. apply Qlt_not_le. reflexivity.
Qed.

(** ** Image formation *)

(** C2: for a non-empty lens list with non-zero focal lengths and an object
    position with [|C*d_o + D| >= 1e-10], where [d_o = z_first - objectZ],
    the magnification that [calculateImage] returns, [A + d_i*C] with
    [d_i = -(A*d_o + B)/(C*d_o + D)], equals [1/(C*d_o + D)]. *)
Theorem magnification_is_reciprocal (this : t) (objectZ : Q) (m : Matrix.t) :
  lenses this <> [] ->
  Forall (fun l => ~ Lens.f l == 0) (lenses this) ->
  calculateSystemMatrix this = Some m ->
  tol10 <= Qabs (Matrix.C m * (Lens.z (lens_at this 0) - objectZ) + Matrix.D m) ->
  exists img q,
    calculateImage this objectZ = Some img /\
    mag img = Fin q /\
    q == Matrix.A m
         + - (Matrix.A m * (Lens.z (lens_at this 0) - objectZ) + Matrix.B m)
           / (Matrix.C m * (Lens.z (lens_at this 0) - objectZ) + Matrix.D m)
           * Matrix.C m /\
    q == 1 / (Matrix.C m * (Lens.z (lens_at this 0) - objectZ) + Matrix.D m).
Proof.
  intros _ _ Hm Hden.
  pose proof (calculateSystemMatrix_det this m Hm) as Hdet.
  pose proof (Qabs_above_tol_nonzero _ Hden) as Hnz.
  unfold calculateImage.
  rewrite (calculateSystemMatrix_length this m Hm), Hm.
  cbv zeta.
  apply Qltb_false in Hden. rewrite Hden.
  eexists. eexists. split; [reflexivity|]. split; [reflexivity|].
  split; [reflexivity|].
  set (d_o := Lens.z (lens_at this 0) - objectZ) in *.
  unfold Matrix.det in Hdet.
  transitivity ((Matrix.A m * Matrix.D m - Matrix.B m * Matrix.C m)
                / (Matrix.C m * d_o + Matrix.D m)).
  - field. exact Hnz.
  - rewrite Hdet. reflexivity.
Qed.

(** ** Cardinal points *)

(** C6: for a system of exactly one lens, of non-zero focal length [f] at
    position [z0] and with [|1/f|] not below the tolerance [1e-10],
    [calculateCardinalPoints] returns [EFL] equal to [f] and both principal
    planes [H] and [H'] at [z0]. *)
Theorem single_lens_cardinal_points (f z0 h : Q) (id : nat) :
  ~ f == 0 ->
  tol10 <= Qabs (1 / f) ->
  exists cp e,
    calculateCardinalPoints (mk [Lens.mk f z0 h id]) = Some cp /\
    efl cp = Fin e /\ e == f /\ H cp == z0 /\ H_prime cp == z0.
Proof.
  intros Hf Htol.
  unfold calculateCardinalPoints, calculateSystemMatrix.
  cbn [lenses length Nat.eqb seq fold_left].
  unfold matrixBody, lens_at.
  cbn [lenses nth Nat.ltb Nat.leb Lens.f Lens.z Nat.sub
       Matrix.A Matrix.B Matrix.C Matrix.D Matrix.identity].
  set (C := - (1) / f * 1 + 0).
  assert (HC : - C == 1 / f) by (unfold C, Qdiv; ring).
  assert (Hp : Qltb (Qabs (- C)) tol10 = false).
  { apply Qltb_false. rewrite HC. exact Htol. }
  assert (Hc : Qltb (Qabs C) tol10 = false).
  { apply Qltb_false. rewrite <- (Qabs_opp C), HC. exact Htol. }
  rewrite Hp, Hc.
  eexists. eexists. split; [reflexivity|]. cbn [efl H H_prime].
  split; [reflexivity|].
  split; [|split].
  - rewrite HC. field. exact Hf.
  - unfold Qdiv. ring.
  - unfold Qdiv. ring.
Qed.

(** ** sortLenses *)

Lemma insert_perm (l : Lens.t) (ls : list Lens.t) :
  Permutation (insert l ls) (l :: ls).
Proof.
  induction ls as [|x xs IH]; simpl.
  - reflexivity.
  - destruct (Qle_bool (compareFn l x) 0).
    + reflexivity.
    + rewrite IH. apply perm_swap.
Qed.

Lemma sort_perm (ls : list Lens.t) : Permutation (sort ls) ls.
Proof.
  induction ls as [|l ls IH]; simpl.
  - reflexivity.
  - rewrite insert_perm. now constructor.
Qed.

Lemma compareFn_le (a b : Lens.t) :
  Qle_bool (compareFn a b) 0 = true <-> Lens.z a <= Lens.z b.
Proof.
  rewrite Qle_bool_iff. unfold compareFn. split; intro Hab; lra.
Qed.

Lemma compareFn_gt (a b : Lens.t) :
  Qle_bool (compareFn a b) 0 = false -> Lens.z b <= Lens.z a.
Proof.
  intro Hab. destruct (Qlt_le_dec (Lens.z a) (Lens.z b)) as [Hlt|Hle].
  - apply Qlt_le_weak, compareFn_le in Hlt. congruence.
  - exact Hle.
Qed.

Lemma insert_ascending (l : Lens.t) (ls : list Lens.t) :
  ascending ls -> ascending (insert l ls).
Proof.
  unfold ascending.
  induction ls as [|x xs IH]; intro Hs; simpl.
  - repeat constructor.
  - apply StronglySorted_inv in Hs. destruct Hs as [Hxs Hx].
    destruct (Qle_bool (compareFn l x) 0) eqn:E.
    + apply compareFn_le in E.
      constructor; [now constructor|].
      constructor; [exact E|].
      eapply Forall_impl; [|exact Hx].
      intros b Hb. simpl in Hb. lra.
    + apply compareFn_gt in E.
      constructor; [now apply IH|].
      apply (Permutation_Forall (Permutation_sym (insert_perm l xs))).
      now constructor.
Qed.

Lemma sort_ascending (ls : list Lens.t) : ascending (sort ls).
Proof.
  induction ls as [|l ls IH]; simpl.
  - constructor.
  - now apply insert_ascending.
Qed.

(** A list already in ascending order is left as it is, ties included. *)
Lemma sort_ascending_id (ls : list Lens.t) : ascending ls -> sort ls = ls.
Proof.
  unfold ascending.
  induction ls as [|l ls IH]; intro Hs; simpl.
  - reflexivity.
  - apply StronglySorted_inv in Hs. destruct Hs as [Hls Hl].
    rewrite (IH Hls).
    destruct ls as [|x xs]; simpl.
    + reflexivity.
    + apply Forall_inv in Hl. apply compareFn_le in Hl. now rewrite Hl.
Qed.

(** In an ascending list the last lens is the farthest. *)
Lemma ascending_last_max (ls : list Lens.t) (l : Lens.t) :
  ascending ls -> In l ls ->
  Lens.z l <= Lens.z (nth (length ls - 1) ls Lens.none).
Proof.
  unfold ascending.
  induction ls as [|x xs IH]; intros Hs Hin.
  - destruct Hin.
  - apply StronglySorted_inv in Hs. destruct Hs as [Hxs Hx].
    destruct xs as [|x' xs'].
    + destruct Hin as [->|[]]. simpl. lra.
    + replace (nth (length (x :: x' :: xs') - 1) (x :: x' :: xs') Lens.none)
        with (nth (length (x' :: xs') - 1) (x' :: xs') Lens.none)
        by (simpl; now rewrite Nat.sub_0_r).
      destruct Hin as [->|Hin].
      * rewrite Forall_forall in Hx. apply Hx.
        apply nth_In. simpl. lia.
      * now apply IH.
Qed.

(** ** The loop of traceRay *)

(** The ray is more than the tolerance past the lens: the lens is skipped. *)
Lemma traceBody_skip (lens : Lens.t) (ray : Ray.t) :
  Lens.z lens + tol9 < Ray.z ray -> traceBody lens ray = (ray, Continue).
Proof.
  intro Hz. unfold traceBody. apply Qgtb_true in Hz. now rewrite Hz.
Qed.

(** The ray reaches the lens out of its aperture: it is stopped there. *)
Lemma traceBody_block (lens : Lens.t) (ray : Ray.t) :
  Ray.z ray <= Lens.z lens + tol9 ->
  Lens.h lens < Qabs (Ray.y (Ray.propagate ray (Lens.z lens))) ->
  traceBody lens ray = (Ray.stop (Ray.propagate ray (Lens.z lens)), Break).
Proof.
  intros Hz Hy. unfold traceBody.
  apply Qgtb_false in Hz. apply Qgtb_true in Hy. now rewrite Hz, Hy.
Qed.

(** The ray reaches the lens within its aperture: it is refracted. *)
Lemma traceBody_pass (lens : Lens.t) (ray : Ray.t) :
  Ray.z ray <= Lens.z lens + tol9 ->
  Qabs (Ray.y (Ray.propagate ray (Lens.z lens))) <= Lens.h lens ->
  traceBody lens ray =
  (Ray.refract (Ray.propagate ray (Lens.z lens)) (Lens.f lens), Continue).
Proof.
  intros Hz Hy. unfold traceBody.
  apply Qgtb_false in Hz. apply Qgtb_false in Hy. now rewrite Hz, Hy.
Qed.

(** The three cases cover every lens and ray. *)
Lemma traceBody_cases (lens : Lens.t) (ray : Ray.t) :
  (Lens.z lens + tol9 < Ray.z ray /\ traceBody lens ray = (ray, Continue)) \/
  (Ray.z ray <= Lens.z lens + tol9 /\
   Lens.h lens < Qabs (Ray.y (Ray.propagate ray (Lens.z lens))) /\
   traceBody lens ray = (Ray.stop (Ray.propagate ray (Lens.z lens)), Break)) \/
  (Ray.z ray <= Lens.z lens + tol9 /\
   Qabs (Ray.y (Ray.propagate ray (Lens.z lens))) <= Lens.h lens /\
   traceBody lens ray =
   (Ray.refract (Ray.propagate ray (Lens.z lens)) (Lens.f lens), Continue)).
Proof.
  destruct (Qlt_le_dec (Lens.z lens + tol9) (Ray.z ray)) as [Hz|Hz].
  - left. split; [exact Hz|now apply traceBody_skip].
  - right.
    destruct (Qlt_le_dec (Lens.h lens)
                (Qabs (Ray.y (Ray.propagate ray (Lens.z lens))))) as [Hy|Hy].
    + left. repeat split; try assumption. now apply traceBody_block.
    + right. repeat split; try assumption. now apply traceBody_pass.
Qed.

(** An iteration that continues leaves an active ray active; one that
    breaks leaves the ray inactive. *)
Lemma traceBody_active (lens : Lens.t) (ray : Ray.t) :
  Ray.active ray = true ->
  match snd (traceBody lens ray) with
  | Continue => Ray.active (fst (traceBody lens ray)) = true
  | Break => Ray.active (fst (traceBody lens ray)) = false
  end.
Proof.
  intro Hr.
  destruct (traceBody_cases lens ray) as [[_ E]|[(_ & _ & E)|(_ & _ & E)]];
    rewrite E; simpl.
  - exact Hr.
  - reflexivity.
  - rewrite refract_active; [reflexivity|].
    now rewrite propagate_active.
Qed.

(** A ray that is inactive before the loop comes out of it as it was. *)
Lemma traceLoop_inactive (ls : list Lens.t) (ray : Ray.t) :
  Ray.active ray = false -> traceLoop ls ray = ray.
Proof.
  intro Hr. induction ls as [|l ls IH]; simpl.
  - reflexivity.
  - unfold traceBody. rewrite (propagate_inactive _ _ Hr).
    rewrite (refract_inactive _ _ Hr), (stop_inactive _ Hr).
    destruct (Qgtb (Ray.z ray) (Lens.z l + tol9)); [exact IH|].
    destruct (Qgtb (Qabs (Ray.y ray)) (Lens.h l)); [reflexivity|exact IH].
Qed.

(** The loop over [pre ++ post] runs [post] on the ray that the loop over
    [pre] leaves, when no lens of [pre] has stopped it. *)
Lemma traceLoop_app (pre post : list Lens.t) :
  forall ray,
    Ray.active ray = true ->
    Ray.active (traceLoop pre ray) = true ->
    traceLoop (pre ++ post) ray = traceLoop post (traceLoop pre ray).
Proof.
  induction pre as [|l pre IH]; intros ray Hr Hpre.
  - reflexivity.
  - simpl in *.
    pose proof (traceBody_active l ray Hr) as Hact.
    destruct (traceBody l ray) as [ray' [|]]; simpl in Hact.
    + now apply IH.
    + congruence.
Qed.

Lemma sortLenses_lenses (this : t) :
  lenses (sortLenses this) = sort (lenses this).
Proof. reflexivity. Qed.

(** [traceRay] on a ray that the loop leaves inactive: no extension. *)
Lemma traceRay_stopped (this : t) (ray : Ray.t) :
  Ray.active (traceLoop (lenses (sortLenses this)) ray) = false ->
  snd (traceRay this ray) = traceLoop (lenses (sortLenses this)) ray.
Proof. intro Hr. unfold traceRay. cbv zeta. now rewrite Hr. Qed.

Lemma propagate_reaches (lens : Lens.t) (r : Ray.t) :
  Ray.active r = true ->
  reaches lens r (Ray.propagate r (Lens.z lens)).
Proof.
  intro Hr. unfold reaches. rewrite (propagate_active _ _ Hr). now simpl.
Qed.

Lemma traceBody_reaches (lens : Lens.t) (r : Ray.t) :
  Ray.active r = true ->
  Ray.z r <= Lens.z lens + tol9 ->
  reaches lens r (fst (traceBody lens r)).
Proof.
  intros Hr Hz.
  pose proof (propagate_reaches lens r Hr) as [Hpz Hpp].
  pose proof (propagate_active r (Lens.z lens) Hr) as Hp.
  destruct (traceBody_cases lens r) as [[Hs _]|[(_ & _ & E)|(_ & _ & E)]].
  - lra.
  - rewrite E. unfold reaches. simpl. now split.
  - rewrite E. unfold reaches. simpl.
    rewrite refract_active by (rewrite Hp; reflexivity). simpl. now split.
Qed.

(** C3: when an active ray, on its way through the lenses in ascending
    order, arrives unstopped at a participating lens and its height at that
    lens's plane exceeds [apertureHalfHeight], then after [traceRay] the ray
    is inactive and its path is the path up to that lens and one last point,
    exactly at the plane of the blocking lens: nothing is appended after it,
    the extension for visualization included. *)
Theorem blocked_ray_ends_at_lens
  (this : t) (ray : Ray.t) (pre post : list Lens.t) (lens : Lens.t) :
  Ray.active ray = true ->
  lenses (sortLenses this) = pre ++ lens :: post ->
  Ray.active (traceLoop pre ray) = true ->
  Ray.z (traceLoop pre ray) <= Lens.z lens + tol9 ->
  Lens.h lens
    < Qabs (Ray.y (Ray.propagate (traceLoop pre ray) (Lens.z lens))) ->
  Ray.active (snd (traceRay this ray)) = false /\
  Ray.z (snd (traceRay this ray)) = Lens.z lens /\
  Lens.h lens < Qabs (Ray.y (snd (traceRay this ray))) /\
  Ray.path (snd (traceRay this ray)) =
    Ray.path (traceLoop pre ray)
      ++ [Point.mk (Lens.z lens) (Ray.y (snd (traceRay this ray)))].
Proof.
  intros Hr Hls Hpre Hz Hy.
  assert (E : traceLoop (lenses (sortLenses this)) ray =
              Ray.stop (Ray.propagate (traceLoop pre ray) (Lens.z lens))).
  { rewrite Hls, (traceLoop_app pre (lens :: post) ray Hr Hpre).
    simpl. now rewrite (traceBody_block lens _ Hz Hy). }
  rewrite traceRay_stopped by (rewrite E; reflexivity).
  rewrite E.
  destruct (propagate_reaches lens _ Hpre) as [Hpz Hpp].
  simpl. repeat split; assumption.
Qed.

(** C7: [traceRay] runs its loop over the lenses in ascending order of
    position, each iteration on the ray as the lenses before it have left
    it.  A lens more than the tolerance [1e-9] behind the ray's current [z]
    is skipped, the ray being left as it is; every other lens participates,
    the ray being brought to its plane: the lenses ahead of the ray, and,
    through the tolerance, the lens at whose plane the ray already is. *)
Theorem trace_participation
  (this : t) (ray : Ray.t) (pre post : list Lens.t) (lens : Lens.t) :
  Ray.active ray = true ->
  lenses (sortLenses this) = pre ++ lens :: post ->
  Ray.active (traceLoop pre ray) = true ->
  ascending (pre ++ lens :: post) /\
  Permutation (pre ++ lens :: post) (lenses this) /\
  fst (traceRay this ray) = sortLenses this /\
  traceLoop (lenses (sortLenses this)) ray =
    match traceBody lens (traceLoop pre ray) with
    | (r', Break) => r'
    | (r', Continue) => traceLoop post r'
    end /\
  (Lens.z lens + tol9 < Ray.z (traceLoop pre ray) ->
   traceBody lens (traceLoop pre ray) = (traceLoop pre ray, Continue)) /\
  (Ray.z (traceLoop pre ray) <= Lens.z lens + tol9 ->
   reaches lens (traceLoop pre ray) (fst (traceBody lens (traceLoop pre ray)))) /\
  (Ray.z (traceLoop pre ray) < Lens.z lens ->
   reaches lens (traceLoop pre ray) (fst (traceBody lens (traceLoop pre ray)))) /\
  (Ray.z (traceLoop pre ray) == Lens.z lens ->
   reaches lens (traceLoop pre ray) (fst (traceBody lens (traceLoop pre ray)))).
Proof.
  intros Hr Hls Hpre.
  assert (Htol : 0 < tol9) by reflexivity.
  split; [|split; [|split; [|split; [|split; [|split; [|split]]]]]].
  - rewrite <- Hls. apply sort_ascending.
  - rewrite <- Hls. apply sort_perm.
  - reflexivity.
  - rewrite Hls. now rewrite (traceLoop_app pre (lens :: post) ray Hr Hpre).
  - apply traceBody_skip.
  - now apply traceBody_reaches.
  - intro Hz. apply traceBody_reaches; [exact Hpre|lra].
  - intro Hz. apply traceBody_reaches; [exact Hpre|lra].
Qed.

(** ** Two lenses at a distance [f1 + f2] *)

Lemma traceRay_snd (this : t) (ray : Ray.t) :
  snd (traceRay this ray) =
  let ls := sort (lenses this) in
  let r1 := traceLoop ls ray in
  if Ray.active r1 then
    Ray.propagate r1
      ((if (0 <? length ls)%nat
        then Lens.z (nth (length ls - 1) ls Lens.none)
        else Ray.z r1) + 1000)
  else r1.
Proof. reflexivity. Qed.

(** An unblocked trace through two lenses [a] then [b]. *)
Lemma traceRay_two_lenses (this : t) (a b : Lens.t) (ray : Ray.t) :
  sort (lenses this) = [a; b] ->
  Ray.active ray = true ->
  Ray.z ray <= Lens.z a + tol9 ->
  Ray.active (snd (traceRay this ray)) = true ->
  snd (traceRay this ray) =
  Ray.propagate
    (Ray.refract
       (Ray.propagate
          (Ray.refract (Ray.propagate ray (Lens.z a)) (Lens.f a))
          (Lens.z b))
       (Lens.f b))
    (Lens.z b + 1000).
Proof.
  intros Hsort Hr Hz.
  assert (Hab : Lens.z a <= Lens.z b).
  { pose proof (sort_ascending (lenses this)) as Hasc.
    rewrite Hsort in Hasc. apply StronglySorted_inv in Hasc.
    destruct Hasc as [_ Hasc]. now apply Forall_inv in Hasc. }
  assert (Htol : 0 < tol9) by reflexivity.
  rewrite traceRay_snd. cbv zeta. rewrite Hsort.
  cbn [traceLoop length Nat.ltb Nat.leb Nat.sub nth].
  destruct (traceBody_cases a ray) as [[Hs _]|[(_ & _ & E1)|(_ & _ & E1)]].
  - lra.
  - rewrite E1. simpl. discriminate.
  - rewrite E1.
    set (r1 := Ray.refract (Ray.propagate ray (Lens.z a)) (Lens.f a)).
    assert (Hr1 : Ray.z r1 = Lens.z a).
    { unfold r1. rewrite refract_active; rewrite propagate_active by exact Hr;
        reflexivity. }
    destruct (traceBody_cases b r1) as [[Hs _]|[(_ & _ & E2)|(_ & _ & E2)]].
    + rewrite Hr1 in Hs. lra.
    + rewrite E2. simpl. discriminate.
    + rewrite E2.
      destruct (Ray.active (Ray.refract (Ray.propagate r1 (Lens.z b))
                                        (Lens.f b))) eqn:E3.
      * reflexivity.
      * intro Hout. congruence.
Qed.

(** The slope after two refractions, the second at the distance [d] after
    the first. *)
Lemma two_lenses_slope (a b : Lens.t) (ray : Ray.t) (d : Q) :
  Ray.active ray = true ->
  Lens.z b - Lens.z a == d ->
  Ray.u (Ray.propagate
           (Ray.refract
              (Ray.propagate
                 (Ray.refract (Ray.propagate ray (Lens.z a)) (Lens.f a))
                 (Lens.z b))
              (Lens.f b))
           (Lens.z b + 1000))
  == Ray.u ray
     - (Ray.y ray + Ray.u ray * (Lens.z a - Ray.z ray)) / Lens.f a
     - ((Ray.y ray + Ray.u ray * (Lens.z a - Ray.z ray))
        + (Ray.u ray
           - (Ray.y ray + Ray.u ray * (Lens.z a - Ray.z ray)) / Lens.f a) * d)
       / Lens.f b.
Proof.
  intros Hr Hd.
  rewrite (propagate_active ray (Lens.z a) Hr).
  rewrite refract_active by reflexivity. cbn [Ray.z Ray.y Ray.u Ray.path].
  rewrite propagate_active by reflexivity. cbn [Ray.z Ray.y Ray.u Ray.path].
  rewrite refract_active by reflexivity. cbn [Ray.z Ray.y Ray.u Ray.path].
  rewrite propagate_active by reflexivity. cbn [Ray.z Ray.y Ray.u Ray.path].
  rewrite Hd. reflexivity.
Qed.

(** The order in which [sortLenses] leaves two lenses. *)
Lemma sort_two_lenses (this : t) (l1 l2 : Lens.t) :
  lenses this = [l1; l2] \/ lenses this = [l2; l1] ->
  Lens.z l1 <= Lens.z l2 ->
  sort (lenses this) = [l1; l2] \/
  (sort (lenses this) = [l2; l1] /\ Lens.z l1 == Lens.z l2).
Proof.
  intros [Hls|Hls] Hz; rewrite Hls.
  - left. apply sort_ascending_id. repeat constructor. exact Hz.
  - simpl. destruct (Qle_bool (compareFn l2 l1) 0) eqn:E.
    + right. split; [reflexivity|].
      apply compareFn_le in E. now apply Qle_antisym.
    + now left.
Qed.

(** C5, as the code has it: in a system of two lenses of non-zero focal
    lengths [f1] and [f2], the second at the distance [f1 + f2] after the
    first, an active ray that starts at or before the first lens (within the
    tolerance) and is not blocked leaves with the slope [-(f1/f2)] times the
    slope it came with; so a ray that comes in parallel to the axis
    leaves parallel to it. *)
Theorem afocal_output_slope (this : t) (l1 l2 : Lens.t) (ray : Ray.t) :
  lenses this = [l1; l2] \/ lenses this = [l2; l1] ->
  ~ Lens.f l1 == 0 ->
  ~ Lens.f l2 == 0 ->
  Lens.z l1 <= Lens.z l2 ->
  Lens.z l2 - Lens.z l1 == Lens.f l1 + Lens.f l2 ->
  Ray.active ray = true ->
  Ray.z ray <= Lens.z l1 + tol9 ->
  Ray.active (snd (traceRay this ray)) = true ->
  Ray.u (snd (traceRay this ray)) == - (Lens.f l1 / Lens.f l2) * Ray.u ray /\
  (Ray.u ray == 0 -> Ray.u (snd (traceRay this ray)) == Ray.u ray).
Proof.
  intros Hls Hf1 Hf2 Hz12 Hd Hr Hz Hout.
  assert (Hu : Ray.u (snd (traceRay this ray))
               == - (Lens.f l1 / Lens.f l2) * Ray.u ray).
  { destruct (sort_two_lenses this l1 l2 Hls Hz12) as [Hsort|[Hsort Heq]].
    - rewrite (traceRay_two_lenses this l1 l2 ray Hsort Hr Hz Hout).
      rewrite (two_lenses_slope l1 l2 ray _ Hr Hd).
      field. split; assumption.
    - assert (Hz' : Ray.z ray <= Lens.z l2 + tol9) by lra.
      assert (Hd' : Lens.z l1 - Lens.z l2 == 0) by lra.
      assert (Hf : Lens.f l1 == - Lens.f l2) by lra.
      rewrite (traceRay_two_lenses this l2 l1 ray Hsort Hr Hz' Hout).
      rewrite (two_lenses_slope l2 l1 ray _ Hr Hd').
      rewrite Hf. field. exact Hf2. }
  split; [exact Hu|].
  intro H0. rewrite Hu, H0. ring.
Qed.

(** ** The path of a traced ray *)

Lemma forward_within_snoc (eps : Q) (xs : list Q) :
  forall a b,
    forward_within eps (xs ++ [a]) ->
    a - eps <= b ->
    forward_within eps ((xs ++ [a]) ++ [b]).
Proof.
  induction xs as [|x xs IH]; intros a b Hfw Hab.
  - simpl. tauto.
  - destruct xs as [|x' xs'].
    + simpl in *. tauto.
    + specialize (IH a b).
      change (x - eps <= x' /\ forward_within eps (((x' :: xs') ++ [a]) ++ [b])).
      change (x - eps <= x' /\ forward_within eps ((x' :: xs') ++ [a])) in Hfw.
      destruct Hfw as [Hx Hfw]. split; [exact Hx|]. now apply IH.
Qed.

Lemma inv_path_zs (r : Ray.t) :
  Ray.inv r -> exists zs, path_zs r = zs ++ [Ray.z r].
Proof.
  intros [front Hfront]. exists (map Point.z front).
  unfold path_zs. rewrite Hfront, map_app. reflexivity.
Qed.

(** Moving an active ray to a position not more than [eps] behind it. *)
Lemma propagate_forward (eps : Q) (r : Ray.t) (newZ : Q) :
  Ray.active r = true ->
  Ray.inv r ->
  forward_within eps (path_zs r) ->
  Ray.z r - eps <= newZ ->
  Ray.active (Ray.propagate r newZ) = true /\
  Ray.z (Ray.propagate r newZ) = newZ /\
  Ray.inv (Ray.propagate r newZ) /\
  forward_within eps (path_zs (Ray.propagate r newZ)).
Proof.
  intros Hr Hinv Hfw Hz.
  destruct (inv_path_zs r Hinv) as [zs Hzs].
  rewrite (propagate_active r newZ Hr).
  split; [reflexivity|]. split; [reflexivity|]. split.
  - now exists (Ray.path r).
  - unfold path_zs in *. cbn [Ray.path]. rewrite map_app. cbn [map Point.z].
    rewrite Hzs in *. now apply forward_within_snoc.
Qed.

Lemma inv_call (r : Ray.t) (o : Ray.op) : Ray.inv r -> Ray.inv (Ray.call r o).
Proof.
  intros [front Hfront].
  destruct (Ray.active r) eqn:Hr.
  - destruct o as [newZ|f|]; simpl.
    + rewrite (propagate_active r newZ Hr). now exists (Ray.path r).
    + rewrite (refract_active r f Hr). now exists front.
    + now exists front.
  - rewrite (call_inactive r o Hr). now exists front.
Qed.

Lemma traceBody_inv (lens : Lens.t) (r : Ray.t) :
  Ray.inv r -> Ray.inv (fst (traceBody lens r)).
Proof.
  intro Hinv. unfold traceBody.
  destruct (Qgtb (Ray.z r) (Lens.z lens + tol9)); [exact Hinv|].
  pose proof (inv_call r (Ray.Propagate (Lens.z lens)) Hinv) as Hp.
  destruct (Qgtb (Qabs (Ray.y (Ray.propagate r (Lens.z lens)))) (Lens.h lens)).
  - exact (inv_call _ Ray.Stop Hp).
  - exact (inv_call _ (Ray.Refract (Lens.f lens)) Hp).
Qed.

Lemma traceLoop_inv (ls : list Lens.t) :
  forall r, Ray.inv r -> Ray.inv (traceLoop ls r).
Proof.
  induction ls as [|l ls IH]; intros r Hinv; simpl.
  - exact Hinv.
  - pose proof (traceBody_inv l r Hinv) as Hb.
    destruct (traceBody l r) as [r' [|]]; simpl in Hb.
    + now apply IH.
    + exact Hb.
Qed.

(** [traceRay] keeps the invariant of Ray: the path stays non-empty. *)
Lemma traceRay_inv (this : t) (r : Ray.t) :
  Ray.inv r -> Ray.inv (snd (traceRay this r)).
Proof.
  intro Hinv. rewrite traceRay_snd. cbv zeta.
  pose proof (traceLoop_inv (sort (lenses this)) r Hinv) as Hl.
  destruct (Ray.active (traceLoop (sort (lenses this)) r)).
  - exact (inv_call _ (Ray.Propagate _) Hl).
  - exact Hl.
Qed.

(** The loop over lenses in ascending order, none of which lies behind the
    ray by more than [eps] unless it is skipped: no step goes back by more
    than [eps], and the ray ends where it was or at a lens. *)
Lemma traceLoop_forward (eps : Q) (ls : list Lens.t) :
  0 <= eps ->
  ascending ls ->
  forall r,
    Ray.active r = true ->
    Ray.inv r ->
    forward_within eps (path_zs r) ->
    Forall (fun l => Ray.z r - eps <= Lens.z l \/ Lens.z l + tol9 < Ray.z r) ls ->
    Ray.inv (traceLoop ls r) /\
    forward_within eps (path_zs (traceLoop ls r)) /\
    (Ray.z (traceLoop ls r) = Ray.z r \/
     exists l, In l ls /\ Ray.z (traceLoop ls r) = Lens.z l).
Proof.
  intros Heps. unfold ascending.
  induction ls as [|l ls IH]; intros Hs r Hr Hinv Hfw Hall.
  - simpl. tauto.
  - apply StronglySorted_inv in Hs. destruct Hs as [Hls Hl].
    apply Forall_cons_iff in Hall. destruct Hall as [Hhd Htl].
    cbn [traceLoop].
    destruct (traceBody_cases l r) as [[Hs E]|[(Hz & _ & E)|(Hz & _ & E)]];
      rewrite E.
    + destruct (IH Hls r Hr Hinv Hfw Htl) as (Ha & Hb & Hc).
      split; [exact Ha|]. split; [exact Hb|].
      destruct Hc as [Hc|(l' & Hin & Hc)]; [now left|].
      right. exists l'. split; [now right|exact Hc].
    + assert (Hstep : Ray.z r - eps <= Lens.z l) by (destruct Hhd; lra).
      destruct (propagate_forward eps r (Lens.z l) Hr Hinv Hfw Hstep)
        as (_ & Hpz & Hpi & Hpf).
      split; [exact (inv_call _ Ray.Stop Hpi)|].
      split; [exact Hpf|].
      right. exists l. split; [now left|exact Hpz].
    + assert (Hstep : Ray.z r - eps <= Lens.z l) by (destruct Hhd; lra).
      destruct (propagate_forward eps r (Lens.z l) Hr Hinv Hfw Hstep)
        as (Hpa & Hpz & Hpi & Hpf).
      set (r1 := Ray.refract (Ray.propagate r (Lens.z l)) (Lens.f l)).
      assert (Hr1 : r1 = Ray.mk (Lens.z l)
                                (Ray.y (Ray.propagate r (Lens.z l)))
                                (Ray.u (Ray.propagate r (Lens.z l))
                                 - Ray.y (Ray.propagate r (Lens.z l)) / Lens.f l)
                                (Ray.path (Ray.propagate r (Lens.z l))) true).
      { unfold r1. rewrite (refract_active _ _ Hpa). now rewrite Hpz. }
      assert (Hz1 : Ray.z r1 = Lens.z l) by now rewrite Hr1.
      assert (Ha1 : Ray.active r1 = true) by now rewrite Hr1.
      assert (Hi1 : Ray.inv r1)
        by exact (inv_call _ (Ray.Refract (Lens.f l)) Hpi).
      assert (Hf1 : forward_within eps (path_zs r1)).
      { unfold path_zs in *. now rewrite Hr1. }
      assert (Hall1 : Forall (fun l' => Ray.z r1 - eps <= Lens.z l'
                                        \/ Lens.z l' + tol9 < Ray.z r1) ls).
      { eapply Forall_impl; [|exact Hl].
        intros l' Hl'. simpl in Hl'. left. rewrite Hz1. lra. }
      destruct (IH Hls r1 Ha1 Hi1 Hf1 Hall1) as (Ha & Hb & Hc).
      split; [exact Ha|]. split; [exact Hb|].
      right. destruct Hc as [Hc|(l' & Hin & Hc)].
      * exists l. split; [now left|]. now rewrite Hc.
      * exists l'. split; [now right|exact Hc].
Qed.

(** The whole of [traceRay] on a fresh ray that starts no further than 1000
    past the last lens. *)
Lemma traceRay_forward (eps : Q) (this : t) (z0 y0 u0 : Q) :
  0 <= eps ->
  (lenses this = [] \/
   exists l, In l (lenses this) /\ z0 <= Lens.z l + 1000) ->
  Forall (fun l => z0 - eps <= Lens.z l \/ Lens.z l + tol9 < z0) (lenses this) ->
  forward_within eps
    (path_zs (snd (traceRay this (Ray.constructor z0 y0 u0)))).
Proof.
  intros Heps Hlast Hall.
  rewrite traceRay_snd. cbv zeta.
  pose proof (sort_perm (lenses this)) as Hperm.
  pose proof (sort_ascending (lenses this)) as Hasc.
  set (ls := sort (lenses this)) in *.
  set (r0 := Ray.constructor z0 y0 u0).
  assert (Hinv0 : Ray.inv r0) by now exists [].
  assert (Hfw0 : forward_within eps (path_zs r0)) by exact I.
  assert (Hall0 : Forall (fun l => Ray.z r0 - eps <= Lens.z l
                                   \/ Lens.z l + tol9 < Ray.z r0) ls).
  { exact (Permutation_Forall (Permutation_sym Hperm) Hall). }
  destruct (traceLoop_forward eps ls Heps Hasc r0 eq_refl Hinv0 Hfw0 Hall0)
    as (Hi & Hf & Hz).
  destruct (Ray.active (traceLoop ls r0)) eqn:Hact; [|exact Hf].
  apply (propagate_forward eps _ _ Hact Hi Hf).
  destruct ls as [|l0 ls'] eqn:Hls.
  - simpl. lra.
  - change (0 <? length (l0 :: ls'))%nat with true. cbv iota.
    assert (Hmax : forall l, In l (l0 :: ls') ->
              Lens.z l <= Lens.z (nth (length (l0 :: ls') - 1) (l0 :: ls')
                                      Lens.none)).
    { intros l Hin. now apply ascending_last_max. }
    destruct Hz as [Hz|(l & Hin & Hz)].
    + rewrite Hz. change (Ray.z r0) with z0.
      destruct Hlast as [Hnil|(l & Hin & Hl)].
      * rewrite Hnil in Hperm. apply Permutation_sym, Permutation_nil in Hperm.
        discriminate.
      * apply (Permutation_in _ (Permutation_sym Hperm)) in Hin.
        specialize (Hmax l Hin). lra.
    + rewrite Hz. specialize (Hmax l Hin). lra.
Qed.

(** C4, as the code has it: after [traceRay] the path of a fresh ray is
    non-empty; when the ray starts no further than 1000 past the last lens
    (or there is no lens), every sample's [z] is at least the [z] of the
    sample before it minus the tolerance [1e-9]; and when moreover no lens
    lies behind the start by [1e-9] or less, the [z] of the path is
    monotonically non-decreasing. *)
Theorem trace_path_forward (this : t) (z0 y0 u0 : Q) :
  Ray.path (snd (traceRay this (Ray.constructor z0 y0 u0))) <> [] /\
  ((lenses this = [] \/
    exists l, In l (lenses this) /\ z0 <= Lens.z l + 1000) ->
   forward_within tol9
     (path_zs (snd (traceRay this (Ray.constructor z0 y0 u0)))) /\
   (Forall (fun l => z0 <= Lens.z l \/ Lens.z l + tol9 < z0) (lenses this) ->
    nondecreasing
      (path_zs (snd (traceRay this (Ray.constructor z0 y0 u0)))))).
Proof.
  split.
  - assert (Hinv : Ray.inv (snd (traceRay this (Ray.constructor z0 y0 u0)))).
    { apply traceRay_inv. now exists []. }
    destruct Hinv as [front Hfront]. rewrite Hfront.
    intro Hnil. now apply app_eq_nil in Hnil.
  - intro Hlast. split.
    + apply traceRay_forward; [discriminate|exact Hlast|].
      apply Forall_forall. intros l _.
      destruct (Qlt_le_dec (Lens.z l + tol9) z0) as [Hlt|Hle].
      * now right.
      * left. lra.
    + intro Hall. apply traceRay_forward; [discriminate|exact Hlast|].
      eapply Forall_impl; [|exact Hall].
      intros l [Hl|Hl]; [left; lra|now right].
Qed.

(** * The properties on the sample systems *)

Import Sample.

Example demo_matrix :
  Matrix.eq demoMatrix (Matrix.mk (- (1 # 2)) 150 (- (1 # 200)) (- (1 # 2))).
Proof. vm_compute. repeat split. Qed.

Example demo_trace_zs :
  path_zs (snd (traceRay demo (Ray.constructor (- (100)) 0 (1 # 8))))
  = [- (100); 0; 150; 1150 # 1].
Proof. vm_compute. reflexivity. Qed.

Lemma demo_ascending : ascending (lenses demo).
Proof.
  unfold ascending.
  repeat (constructor; try (vm_compute; discriminate)).
Defined.

Lemma demo_focal_lengths : Forall (fun l => ~ Lens.f l == 0) (lenses demo).
Proof.
  repeat (constructor; try (vm_compute; discriminate)).
Defined.

Lemma calculateSystemMatrix_composes_witness :
  exists m, calculateSystemMatrix demo = Some m /\
            Matrix.eq m (Spec.systemMatrix (lenses demo)).
Proof.
  apply (calculateSystemMatrix_composes demo).
  - discriminate.
  - exact demo_ascending.
  - exact demo_focal_lengths.
Defined.

Lemma magnification_is_reciprocal_witness :
  exists img q,
    calculateImage demo (- (200)) = Some img /\
    mag img = Fin q /\
    q == Matrix.A demoMatrix
         + - (Matrix.A demoMatrix * (Lens.z (lens_at demo 0) - - (200))
              + Matrix.B demoMatrix)
           / (Matrix.C demoMatrix * (Lens.z (lens_at demo 0) - - (200))
              + Matrix.D demoMatrix)
           * Matrix.C demoMatrix /\
    q == 1 / (Matrix.C demoMatrix * (Lens.z (lens_at demo 0) - - (200))
              + Matrix.D demoMatrix).
Proof.
  apply (magnification_is_reciprocal demo (- (200)) demoMatrix).
  - discriminate.
  - exact demo_focal_lengths.
  - vm_compute. reflexivity.
  - vm_compute. discriminate.
Defined.

Example demo_magnification :
  exists img q,
    calculateImage demo (- (200)) = Some img /\
    mag img = Fin q /\ q == - (2 # 3).
Proof.
  eexists. eexists. split; [vm_compute; reflexivity|].
  split; [reflexivity|]. reflexivity.
Qed.

Lemma blocked_ray_ends_at_lens_witness :
  Ray.active (snd (traceRay demo (Ray.constructor (- (100)) (- (70)) (3 # 10))))
    = false /\
  Ray.z (snd (traceRay demo (Ray.constructor (- (100)) (- (70)) (3 # 10))))
    = Lens.z lensB /\
  Lens.h lensB
    < Qabs (Ray.y (snd (traceRay demo
                          (Ray.constructor (- (100)) (- (70)) (3 # 10))))) /\
  Ray.path (snd (traceRay demo (Ray.constructor (- (100)) (- (70)) (3 # 10))))
    = Ray.path (traceLoop [lensA] (Ray.constructor (- (100)) (- (70)) (3 # 10)))
      ++ [Point.mk (Lens.z lensB)
            (Ray.y (snd (traceRay demo
                           (Ray.constructor (- (100)) (- (70)) (3 # 10)))))].
Proof.
  apply (blocked_ray_ends_at_lens
           demo (Ray.constructor (- (100)) (- (70)) (3 # 10))
           [lensA] [] lensB).
  - reflexivity.
  - vm_compute. reflexivity.
  - vm_compute. reflexivity.
  - vm_compute. discriminate.
  - vm_compute. reflexivity.
Defined.

Example blocked_ray_path :
  path_zs (snd (traceRay demo (Ray.constructor (- (100)) (- (70)) (3 # 10))))
  = [- (100); 0; 150].
Proof. vm_compute. reflexivity. Qed.

(** C4, as stated, fails: a fresh ray that starts half the tolerance past a
    lens is taken back to the plane of that lens. *)
Lemma trace_path_counterexample :
  path_zs (snd (traceRay single (Ray.constructor (1 # 2000000000) 0 0)))
    = [1 # 2000000000; 0; 1000 # 1] /\
  ~ nondecreasing
      (path_zs (snd (traceRay single (Ray.constructor (1 # 2000000000) 0 0)))).
Proof.
  split.
  - vm_compute. reflexivity.
  - intro Hnd.
    assert (E : path_zs (snd (traceRay single
                                (Ray.constructor (1 # 2000000000) 0 0)))
                = [1 # 2000000000; 0; 1000 # 1]) by (vm_compute; reflexivity).
    rewrite E in Hnd. destruct Hnd as [Hstep _].
    vm_compute in Hstep. now apply Hstep.
Qed.

(** A fresh ray that starts more than 1000 past the last lens is taken back
    by the extension for visualization. *)
Example trace_path_far_start :
  path_zs (snd (traceRay single (Ray.constructor 5000 0 0)))
    = [5000; 1000 # 1].
Proof. vm_compute. reflexivity. Qed.

Lemma trace_path_forward_witness :
  Ray.path (snd (traceRay demo (Ray.constructor (- (100)) 0 (1 # 8)))) <> [] /\
  forward_within tol9
    (path_zs (snd (traceRay demo (Ray.constructor (- (100)) 0 (1 # 8))))) /\
  nondecreasing
    (path_zs (snd (traceRay demo (Ray.constructor (- (100)) 0 (1 # 8))))).
Proof.
  destruct (trace_path_forward demo (- (100)) 0 (1 # 8)) as [Hne Hfw].
  split; [exact Hne|].
  assert (Hlast : lenses demo = [] \/
                  exists l, In l (lenses demo) /\ - (100) <= Lens.z l + 1000).
  { right. exists lensA. split; [now left|vm_compute; discriminate]. }
  destruct (Hfw Hlast) as [Htol Hnd].
  split; [exact Htol|].
  apply Hnd.
  repeat (constructor; try (left; vm_compute; discriminate)).
Defined.

(** C5, as stated, fails: through two matched lenses at the distance
    [f1 + f2] an unblocked ray of slope [1/8] leaves with slope [-1/8]. *)
Lemma afocal_slope_counterexample :
  ~ Lens.f lensA == 0 /\ ~ Lens.f lensC == 0 /\
  Lens.z lensC - Lens.z lensA == Lens.f lensA + Lens.f lensC /\
  Ray.active (snd (traceRay afocal (Ray.constructor (- (100)) 0 (1 # 8)))) = true /\
  Ray.u (snd (traceRay afocal (Ray.constructor (- (100)) 0 (1 # 8))))
    == - (1 # 8) /\
  ~ Ray.u (snd (traceRay afocal (Ray.constructor (- (100)) 0 (1 # 8))))
      == Ray.u (Ray.constructor (- (100)) 0 (1 # 8)).
Proof.
  repeat split; try (vm_compute; discriminate); vm_compute; reflexivity.
Qed.

Lemma afocal_output_slope_witness :
  Ray.u (snd (traceRay afocal (Ray.constructor (- (100)) 0 (1 # 8))))
    == - (Lens.f lensA / Lens.f lensC)
       * Ray.u (Ray.constructor (- (100)) 0 (1 # 8)) /\
  (Ray.u (Ray.constructor (- (100)) 0 (1 # 8)) == 0 ->
   Ray.u (snd (traceRay afocal (Ray.constructor (- (100)) 0 (1 # 8))))
     == Ray.u (Ray.constructor (- (100)) 0 (1 # 8))).
Proof.
  apply (afocal_output_slope afocal lensA lensC
           (Ray.constructor (- (100)) 0 (1 # 8))).
  - left. reflexivity.
  - vm_compute. discriminate.
  - vm_compute. discriminate.
  - vm_compute. discriminate.
  - vm_compute. reflexivity.
  - reflexivity.
  - vm_compute. discriminate.
  - vm_compute. reflexivity.
Defined.

Lemma single_lens_cardinal_points_witness :
  exists cp e,
    calculateCardinalPoints (mk [Lens.mk 100 0 50 0%nat]) = Some cp /\
    efl cp = Fin e /\ e == 100 /\ H cp == 0 /\ H_prime cp == 0.
Proof.
  apply (single_lens_cardinal_points 100 0 50 0%nat).
  - vm_compute. discriminate.
  - vm_compute. discriminate.
Defined.

Lemma trace_participation_witness :
  reaches lensB
    (traceLoop [lensA] (Ray.constructor (- (100)) 0 (1 # 8)))
    (fst (traceBody lensB
            (traceLoop [lensA] (Ray.constructor (- (100)) 0 (1 # 8))))).
Proof.
  destruct (trace_participation
              demo (Ray.constructor (- (100)) 0 (1 # 8)) [lensA] [] lensB)
    as (_ & _ & _ & _ & _ & Hreach & _).
  - reflexivity.
  - vm_compute. reflexivity.
  - vm_compute. reflexivity.
  - apply Hreach. vm_compute. discriminate.
Defined.

Lemma ray_invariant_witness :
  Ray.inv (Ray.call (Ray.constructor 0 1 2) (Ray.Propagate 5)).
Proof.
  destruct ray_invariant as (Hnew & _ & _ & _ & _ & Hcall).
  apply Hcall. apply (Hnew 0 1 2).
Defined.

(** * Further properties of the engine and of its callers *)

(** ** Ray *)

(** X1: two moves of an active ray in a row end at the position, height and
    slope that the single move to the second target gives; the path gains
    one sample for each move. *)
Theorem propagate_twice (r : Ray.t) (z1 z2 : Q) :
  Ray.active r = true ->
  Ray.z (Ray.propagate (Ray.propagate r z1) z2) = Ray.z (Ray.propagate r z2) /\
  Ray.y (Ray.propagate (Ray.propagate r z1) z2) == Ray.y (Ray.propagate r z2) /\
  Ray.u (Ray.propagate (Ray.propagate r z1) z2) = Ray.u r /\
  Ray.path (Ray.propagate (Ray.propagate r z1) z2) =
    Ray.path r
      ++ [Point.mk z1 (Ray.y (Ray.propagate r z1));
          Point.mk z2 (Ray.y (Ray.propagate (Ray.propagate r z1) z2))].
Proof.
  intro Hr.
  rewrite (propagate_active r z1 Hr), (propagate_active r z2 Hr).
  rewrite propagate_active by reflexivity.
  cbn [Ray.z Ray.y Ray.u Ray.path].
  split; [reflexivity|]. split; [ring|]. split; [reflexivity|].
  now rewrite <- app_assoc.
Qed.

Lemma propagate_twice_witness :
  Ray.y (Ray.propagate (Ray.propagate (Ray.constructor 0 1 (1 # 2)) 10) 4)
  == Ray.y (Ray.propagate (Ray.constructor 0 1 (1 # 2)) 4).
Proof.
  apply (propagate_twice (Ray.constructor 0 1 (1 # 2)) 10 4).
  reflexivity.
Defined.

(** ** The lens list *)

Lemma insert_lenses_at (z0 : Q) (x : Lens.t) (ls : list Lens.t) :
  lenses_at z0 (insert x ls) = lenses_at z0 (x :: ls).
Proof.
  unfold lenses_at.
  induction ls as [|y ys IH]; [reflexivity|].
  cbn [insert]. destruct (Qle_bool (compareFn x y) 0) eqn:E; [reflexivity|].
  cbn [filter] in *. rewrite IH.
  destruct (Qeq_bool (Lens.z y) z0) eqn:Ey; [|reflexivity].
  destruct (Qeq_bool (Lens.z x) z0) eqn:Ex; [|reflexivity].
  apply Qeq_bool_iff in Ey. apply Qeq_bool_iff in Ex.
  assert (Hxy : Lens.z x <= Lens.z y) by (rewrite Ex, Ey; apply Qle_refl).
  apply compareFn_le in Hxy. congruence.
Qed.

(** X2: [sortLenses] leaves the same lenses, in ascending order of position,
    and the lenses that share a position in the order they had. *)
Theorem sortLenses_sorts_stably (this : t) :
  Permutation (lenses (sortLenses this)) (lenses this) /\
  ascending (lenses (sortLenses this)) /\
  (forall z0, lenses_at z0 (lenses (sortLenses this))
              = lenses_at z0 (lenses this)).
Proof.
  split; [apply sort_perm|]. split; [apply sort_ascending|].
  intro z0. rewrite sortLenses_lenses.
  induction (lenses this) as [|l ls IH]; [reflexivity|].
  cbn [sort fold_right]. fold (sort ls).
  rewrite insert_lenses_at. unfold lenses_at in *. cbn [filter].
  now rewrite IH.
Qed.

(** X3: [sortLenses] leaves a system whose lenses are in ascending order as
    it is; so sorting twice is sorting once, and [traceRay], which sorts,
    hands back such a system unchanged. *)
Theorem sortLenses_ascending_fixed (this : t) :
  (ascending (lenses this) -> sortLenses this = this) /\
  sortLenses (sortLenses this) = sortLenses this /\
  (forall ray ray',
     fst (traceRay (fst (traceRay this ray)) ray') = fst (traceRay this ray)).
Proof.
  assert (Hidem : sortLenses (sortLenses this) = sortLenses this).
  { unfold sortLenses. cbn [lenses].
    now rewrite (sort_ascending_id _ (sort_ascending (lenses this))). }
  split; [|split].
  - intro Hasc. destruct this as [ls]. unfold sortLenses. cbn [lenses] in *.
    now rewrite (sort_ascending_id ls Hasc).
  - exact Hidem.
  - intros ray ray'. exact Hidem.
Qed.

Lemma sortLenses_ascending_fixed_witness : sortLenses demo = demo.
Proof.
  apply (proj1 (sortLenses_ascending_fixed demo)). exact demo_ascending.
Defined.

(** X4: [addLens] returns the lens it builds, with aperture 50 when none is
    given, and leaves the old lenses and the new one, in ascending order,
    whatever the order was before. *)
Theorem addLens_sorted (this : t) (f z : Q) (h : option Q) (id : nat) :
  snd (addLens this f z h id)
    = Lens.mk f z (match h with Some h' => h' | None => 50 end) id /\
  Permutation (lenses (fst (addLens this f z h id)))
              (snd (addLens this f z h id) :: lenses this) /\
  ascending (lenses (fst (addLens this f z h id))) /\
  length (lenses (fst (addLens this f z h id))) = S (length (lenses this)).
Proof.
  unfold addLens. cbn [fst snd]. rewrite sortLenses_lenses. cbn [lenses].
  assert (Hperm : Permutation
                    (sort (lenses this ++
                           [Lens.mk f z match h with Some h' => h' | None => 50 end id]))
                    (Lens.mk f z match h with Some h' => h' | None => 50 end id
                       :: lenses this)).
  { rewrite sort_perm. rewrite Permutation_app_comm. reflexivity. }
  split; [reflexivity|]. split; [exact Hperm|].
  split; [apply sort_ascending|].
  rewrite (Permutation_length Hperm). reflexivity.
Qed.

Lemma filter_id_fresh (id : nat) (ls : list Lens.t) :
  Forall (fun l => Lens.id l <> id) ls ->
  filter (fun l => negb (Lens.id l =? id)%nat) ls = ls.
Proof.
  induction 1 as [|l ls Hl _ IH]; [reflexivity|].
  cbn [filter]. apply Nat.eqb_neq in Hl. rewrite Hl. cbn [negb]. now rewrite IH.
Qed.

(** X5: [removeLens(id)] leaves exactly the lenses with another [id], in the
    order they had, so in ascending order if they were; an [id] that no
    lens has leaves the system as it is. *)
Theorem removeLens_removes (this : t) (id : nat) :
  (forall l, In l (lenses (removeLens this id))
             <-> In l (lenses this) /\ Lens.id l <> id) /\
  (ascending (lenses this) -> ascending (lenses (removeLens this id))) /\
  (Forall (fun l => Lens.id l <> id) (lenses this) -> removeLens this id = this).
Proof.
  unfold removeLens. cbn [lenses].
  split; [|split].
  - intro l. rewrite filter_In, negb_true_iff, Nat.eqb_neq. tauto.
  - unfold ascending.
    induction 1 as [|l ls Hs IH Hl]; cbn [filter]; [constructor|].
    destruct (negb (Lens.id l =? id)%nat); [|exact IH].
    constructor; [exact IH|].
    rewrite Forall_forall in *. intros x Hx. apply Hl.
    now apply filter_In in Hx.
  - intro Hfresh. rewrite (filter_id_fresh id _ Hfresh). now destruct this.
Qed.

Lemma removeLens_removes_witness : removeLens demo 7 = demo.
Proof.
  apply (proj2 (proj2 (removeLens_removes demo 7))).
  repeat (constructor; try discriminate).
Defined.

Lemma filter_id_insert (id : nat) (x : Lens.t) (ls : list Lens.t) :
  Lens.id x <> id ->
  Forall (fun y => Lens.z x <= Lens.z y)
         (filter (fun l => negb (Lens.id l =? id)%nat) ls) ->
  filter (fun l => negb (Lens.id l =? id)%nat) (insert x ls)
  = x :: filter (fun l => negb (Lens.id l =? id)%nat) ls.
Proof.
  intros Hx. apply Nat.eqb_neq in Hx.
  induction ls as [|y ys IH]; intro Hall.
  - cbn. now rewrite Hx.
  - cbn [insert]. destruct (Qle_bool (compareFn x y) 0) eqn:E.
    + cbn [filter]. now rewrite Hx.
    + cbn [filter] in *.
      destruct (negb (Lens.id y =? id)%nat) eqn:Ey.
      * apply Forall_inv in Hall. apply compareFn_le in Hall. congruence.
      * now apply IH.
Qed.

(** X6: adding a lens under an [id] that no lens has and removing that [id]
    again gives back a system whose lenses were in ascending order. *)
Theorem removeLens_addLens (this : t) (f z : Q) (h : option Q) (id : nat) :
  ascending (lenses this) ->
  Forall (fun l => Lens.id l <> id) (lenses this) ->
  removeLens (fst (addLens this f z h id)) id = this.
Proof.
  intros Hasc Hfresh.
  destruct this as [ls]. unfold removeLens, addLens, sortLenses.
  cbn [fst lenses] in *. f_equal.
  set (new := Lens.mk f z match h with Some h' => h' | None => 50 end id).
  unfold sort. rewrite fold_right_app. cbn [fold_right insert].
  unfold ascending in Hasc.
  induction Hasc as [|l ls' Hs IH Hl].
  - cbn. now rewrite Nat.eqb_refl.
  - apply Forall_cons_iff in Hfresh. destruct Hfresh as [Hlid Hfresh].
    cbn [fold_right]. rewrite filter_id_insert.
    + now rewrite (IH Hfresh).
    + exact Hlid.
    + rewrite (IH Hfresh). exact Hl.
Qed.

Lemma removeLens_addLens_witness :
  removeLens (fst (addLens demo 100 75 None 7)) 7 = demo.
Proof.
  apply (removeLens_addLens demo 100 75 None 7).
  - exact demo_ascending.
  - repeat (constructor; try discriminate).
Defined.

(** ** traceRay at its edges *)

(** X7: [traceRay] leaves a ray that is already inactive as it is: no move,
    no refraction and no extension. *)
Theorem traceRay_inactive (this : t) (ray : Ray.t) :
  Ray.active ray = false -> snd (traceRay this ray) = ray.
Proof.
  intro Hr. rewrite traceRay_snd. cbv zeta.
  rewrite (traceLoop_inactive _ ray Hr). now rewrite Hr.
Qed.

Lemma traceRay_inactive_witness :
  snd (traceRay demo (Ray.stop (Ray.constructor 0 1 2)))
  = Ray.stop (Ray.constructor 0 1 2).
Proof.
  apply (traceRay_inactive demo (Ray.stop (Ray.constructor 0 1 2))).
  reflexivity.
Defined.

Lemma traceLoop_all_skipped (ls : list Lens.t) (ray : Ray.t) :
  Forall (fun l => Lens.z l + tol9 < Ray.z ray) ls -> traceLoop ls ray = ray.
Proof.
  induction 1 as [|l ls Hl _ IH]; [reflexivity|].
  cbn [traceLoop]. now rewrite (traceBody_skip l ray Hl).
Qed.

(** X8: an active ray that is more than the tolerance past every lens (or
    that meets no lens at all) is not refracted: [traceRay] only moves it, in
    one step and with the slope it had, to 1000 past the last lens, or to
    1000 past its own position when there is no lens. *)
Theorem traceRay_past_all_lenses (this : t) (ray : Ray.t) :
  Ray.active ray = true ->
  Forall (fun l => Lens.z l + tol9 < Ray.z ray) (lenses this) ->
  snd (traceRay this ray) =
    Ray.propagate ray
      ((if (0 <? length (lenses this))%nat
        then Lens.z (lens_at (sortLenses this) (length (lenses this) - 1))
        else Ray.z ray) + 1000) /\
  Ray.u (snd (traceRay this ray)) = Ray.u ray /\
  length (Ray.path (snd (traceRay this ray))) = S (length (Ray.path ray)) /\
  (lenses this = [] ->
   snd (traceRay this ray) = Ray.propagate ray (Ray.z ray + 1000)).
Proof.
  intros Hr Hall.
  assert (Hlen : length (sort (lenses this)) = length (lenses this))
    by apply (Permutation_length (sort_perm _)).
  assert (E : snd (traceRay this ray) =
              Ray.propagate ray
                ((if (0 <? length (lenses this))%nat
                  then Lens.z (lens_at (sortLenses this)
                                       (length (lenses this) - 1))
                  else Ray.z ray) + 1000)).
  { rewrite traceRay_snd. cbv zeta.
    rewrite traceLoop_all_skipped
      by exact (Permutation_Forall (Permutation_sym (sort_perm _)) Hall).
    rewrite Hr, Hlen. reflexivity. }
  split; [exact E|].
  assert (Hnil : lenses this = [] ->
                 snd (traceRay this ray) = Ray.propagate ray (Ray.z ray + 1000)).
  { intro Hnil. rewrite E, Hnil. reflexivity. }
  rewrite E. rewrite propagate_active by exact Hr. cbn [Ray.u Ray.path].
  split; [reflexivity|]. split.
  - rewrite length_app. simpl. lia.
  - intro H0. rewrite <- (propagate_active ray _ Hr), <- E. now apply Hnil.
Qed.

Lemma traceRay_past_all_lenses_witness :
  Ray.u (snd (traceRay demo (Ray.constructor 5000 1 (1 # 2)))) = 1 # 2.
Proof.
  apply (traceRay_past_all_lenses demo (Ray.constructor 5000 1 (1 # 2))).
  - reflexivity.
  - repeat (constructor; try (vm_compute; reflexivity)).
Defined.

(** ** Tracing and the system matrix *)

(** The loop over the lenses after [prev], on a ray at the plane of [prev]
    whose state is [M (y0, u0)]: when no lens stops the ray, it visits the
    planes one by one and its state is the product of the elements met,
    applied to [(y0, u0)]. *)
Lemma traceLoop_unblocked (rest : list Lens.t) :
  forall (prev : Lens.t) (r : Ray.t) (M : Matrix.t) (y0 u0 : Q),
    ascending (prev :: rest) ->
    Ray.active r = true ->
    Ray.z r = Lens.z prev ->
    Ray.y r == fst (Matrix.apply M y0 u0) ->
    Ray.u r == snd (Matrix.apply M y0 u0) ->
    Ray.active (traceLoop rest r) = true ->
    Ray.y (traceLoop rest r)
      == fst (Matrix.apply
                (fold_left (fun running e => Matrix.mul e running)
                           (Spec.elements_from prev rest) M) y0 u0) /\
    Ray.u (traceLoop rest r)
      == snd (Matrix.apply
                (fold_left (fun running e => Matrix.mul e running)
                           (Spec.elements_from prev rest) M) y0 u0) /\
    Ray.z (traceLoop rest r)
      = Lens.z (nth (length rest) (prev :: rest) Lens.none) /\
    path_zs (traceLoop rest r) = path_zs r ++ map Lens.z rest.
Proof.
  assert (Htol : 0 < tol9) by reflexivity.
  induction rest as [|l rest IH]; intros prev r M y0 u0 Hs Hr Hz Hy Hu Hact.
  - cbn. rewrite app_nil_r. tauto.
  - unfold ascending in Hs. apply StronglySorted_inv in Hs.
    destruct Hs as [Hs Hprev]. apply Forall_inv in Hprev.
    cbn [traceLoop] in *.
    destruct (traceBody_cases l r) as [[Hk _]|[(_ & _ & E)|(_ & _ & E)]].
    + rewrite Hz in Hk. lra.
    + rewrite E in Hact. simpl in Hact. discriminate.
    + rewrite E in *.
      set (r1 := Ray.refract (Ray.propagate r (Lens.z l)) (Lens.f l)) in *.
      assert (Hr1 : r1 = Ray.mk (Lens.z l)
                  (Ray.y r + Ray.u r * (Lens.z l - Lens.z prev))
                  (Ray.u r - (Ray.y r + Ray.u r * (Lens.z l - Lens.z prev))
                             / Lens.f l)
                  (Ray.path r
                     ++ [Point.mk (Lens.z l)
                           (Ray.y r + Ray.u r * (Lens.z l - Lens.z prev))])
                  true).
      { unfold r1. rewrite (propagate_active r _ Hr).
        rewrite refract_active by reflexivity. now rewrite Hz. }
      set (M1 := Matrix.mul (Matrix.refraction (Lens.f l))
                   (Matrix.mul (Matrix.translation (Lens.z l - Lens.z prev)) M)).
      destruct (IH l r1 M1 y0 u0) as (Hy' & Hu' & Hz' & Hp'); try assumption.
      * now rewrite Hr1.
      * now rewrite Hr1.
      * rewrite Hr1. cbn [Ray.y]. rewrite Hy, Hu.
        unfold M1, Matrix.apply, Matrix.mul, Matrix.refraction,
          Matrix.translation. cbn. ring.
      * rewrite Hr1. cbn [Ray.u]. rewrite Hy, Hu.
        unfold M1, Matrix.apply, Matrix.mul, Matrix.refraction,
          Matrix.translation. cbn. unfold Qdiv. ring.
      * cbn [Spec.elements_from fold_left]. fold M1.
        split; [exact Hy'|]. split; [exact Hu'|]. split; [exact Hz'|].
        rewrite Hp'. unfold path_zs. rewrite Hr1. cbn [Ray.path].
        rewrite map_app, <- app_assoc. reflexivity.
Qed.

(** An unblocked trace of a system in ascending order, from a ray that
    reaches the first lens: the ray at the last lens, before the extension. *)
Lemma traceRay_unblocked (this : t) (ray : Ray.t) (m : Matrix.t) :
  ascending (lenses this) ->
  calculateSystemMatrix this = Some m ->
  Ray.active ray = true ->
  Ray.z ray <= Lens.z (lens_at this 0) + tol9 ->
  Ray.active (snd (traceRay this ray)) = true ->
  exists rL,
    snd (traceRay this ray)
      = Ray.propagate rL
          (Lens.z (lens_at this (length (lenses this) - 1)) + 1000) /\
    Ray.active rL = true /\
    Ray.z rL = Lens.z (lens_at this (length (lenses this) - 1)) /\
    Ray.y rL
      == fst (Matrix.apply m
                (Ray.y ray + Ray.u ray * (Lens.z (lens_at this 0) - Ray.z ray))
                (Ray.u ray)) /\
    Ray.u rL
      == snd (Matrix.apply m
                (Ray.y ray + Ray.u ray * (Lens.z (lens_at this 0) - Ray.z ray))
                (Ray.u ray)) /\
    path_zs rL = path_zs ray ++ map Lens.z (lenses this).
Proof.
  intros Hasc Hm Hr Hz.
  assert (Hne : lenses this <> []).
  { intro Hnil. unfold calculateSystemMatrix in Hm. rewrite Hnil in Hm.
    discriminate. }
  destruct (calculateSystemMatrix_spec this Hne) as (m' & Hm' & Heq).
  rewrite Hm in Hm'. injection Hm' as <-.
  rewrite traceRay_snd. cbv zeta.
  rewrite (sort_ascending_id _ Hasc).
  unfold lens_at in *.
  destruct (lenses this) as [|l0 rest] eqn:Hls; [congruence|].
  cbn [nth] in Hz.
  replace (length (l0 :: rest) - 1)%nat with (length rest)
    by (simpl; lia).
  change (0 <? length (l0 :: rest))%nat with true. cbv iota.
  cbn [traceLoop].
  destruct (traceBody_cases l0 ray) as [[Hk _]|[(_ & _ & E)|(_ & _ & E)]].
  - lra.
  - rewrite E. simpl. discriminate.
  - rewrite E.
    set (r1 := Ray.refract (Ray.propagate ray (Lens.z l0)) (Lens.f l0)).
    assert (Hr1 : r1 = Ray.mk (Lens.z l0)
                (Ray.y ray + Ray.u ray * (Lens.z l0 - Ray.z ray))
                (Ray.u ray - (Ray.y ray + Ray.u ray * (Lens.z l0 - Ray.z ray))
                             / Lens.f l0)
                (Ray.path ray
                   ++ [Point.mk (Lens.z l0)
                         (Ray.y ray + Ray.u ray * (Lens.z l0 - Ray.z ray))])
                true).
    { unfold r1. rewrite (propagate_active ray _ Hr).
      now rewrite refract_active by reflexivity. }
    destruct (Ray.active (traceLoop rest r1)) eqn:Hact; [|congruence].
    intros _.
    set (y1 := Ray.y ray + Ray.u ray * (Lens.z l0 - Ray.z ray)) in *.
    destruct (traceLoop_unblocked rest l0 r1
                (Matrix.mul (Matrix.refraction (Lens.f l0)) Matrix.identity)
                y1 (Ray.u ray))
      as (Hy' & Hu' & Hz' & Hp'); try assumption.
    + now rewrite Hr1.
    + now rewrite Hr1.
    + rewrite Hr1. cbn. ring.
    + rewrite Hr1. cbn. unfold Qdiv. ring.
    + exists (traceLoop rest r1).
      split; [reflexivity|]. split; [exact Hact|]. split; [exact Hz'|].
      unfold Spec.systemMatrix, Spec.compose in Heq.
      cbn [Spec.elements fold_left] in Heq.
      destruct Heq as (HA & HB & HC & HD).
      unfold Matrix.apply in *. cbn [fst snd] in *.
      rewrite HA, HB, HC, HD.
      split; [exact Hy'|]. split; [exact Hu'|].
      rewrite Hp'. unfold path_zs. rewrite Hr1. cbn [Ray.path].
      rewrite map_app, <- app_assoc. reflexivity.
Qed.

(** X9: in a system in ascending order, an active ray that reaches the first
    lens and is not blocked gets one sample at the plane of every lens, in
    order, and a last one 1000 past the last lens. *)
Theorem unblocked_path (this : t) (ray : Ray.t) :
  lenses this <> [] ->
  ascending (lenses this) ->
  Ray.active ray = true ->
  Ray.z ray <= Lens.z (lens_at this 0) + tol9 ->
  Ray.active (snd (traceRay this ray)) = true ->
  path_zs (snd (traceRay this ray))
  = path_zs ray ++ map Lens.z (lenses this)
      ++ [Lens.z (lens_at this (length (lenses this) - 1)) + 1000].
Proof.
  intros Hne Hasc Hr Hz Hout.
  destruct (calculateSystemMatrix_spec this Hne) as (m & Hm & _).
  destruct (traceRay_unblocked this ray m Hasc Hm Hr Hz Hout)
    as (rL & E & HaL & _ & _ & _ & HpL).
  rewrite E, (propagate_active rL _ HaL).
  unfold path_zs in *. cbn [Ray.path]. rewrite map_app, HpL.
  now rewrite <- app_assoc.
Qed.

Lemma unblocked_path_witness :
  path_zs (snd (traceRay demo (Ray.constructor (- (100)) 0 (1 # 8))))
  = path_zs (Ray.constructor (- (100)) 0 (1 # 8)) ++ map Lens.z (lenses demo)
      ++ [Lens.z (lens_at demo (length (lenses demo) - 1)) + 1000].
Proof.
  apply (unblocked_path demo (Ray.constructor (- (100)) 0 (1 # 8))).
  - discriminate.
  - exact demo_ascending.
  - reflexivity.
  - vm_compute. discriminate.
  - vm_compute. reflexivity.
Defined.

(** X10: tracing agrees with the system matrix.  In a system in ascending
    order, an active ray that reaches the first lens at the height [y1]
    with the slope [u0] and is not blocked leaves the last lens with the
    state [(A y1 + B u0, C y1 + D u0)], for the matrix [(A B; C D)] of
    [calculateSystemMatrix]: that is the slope [traceRay] leaves it with,
    and the height, 1000 further on. *)
Theorem trace_matches_matrix (this : t) (ray : Ray.t) (m : Matrix.t) :
  ascending (lenses this) ->
  Forall (fun l => ~ Lens.f l == 0) (lenses this) ->
  calculateSystemMatrix this = Some m ->
  Ray.active ray = true ->
  Ray.z ray <= Lens.z (lens_at this 0) + tol9 ->
  Ray.active (snd (traceRay this ray)) = true ->
  Ray.u (snd (traceRay this ray))
    == snd (Matrix.apply m
              (Ray.y ray + Ray.u ray * (Lens.z (lens_at this 0) - Ray.z ray))
              (Ray.u ray)) /\
  Ray.y (snd (traceRay this ray))
    == fst (Matrix.apply m
              (Ray.y ray + Ray.u ray * (Lens.z (lens_at this 0) - Ray.z ray))
              (Ray.u ray))
       + snd (Matrix.apply m
                (Ray.y ray + Ray.u ray * (Lens.z (lens_at this 0) - Ray.z ray))
                (Ray.u ray)) * 1000 /\
  Ray.z (snd (traceRay this ray))
    = Lens.z (lens_at this (length (lenses this) - 1)) + 1000.
Proof.
  intros Hasc _ Hm Hr Hz Hout.
  destruct (traceRay_unblocked this ray m Hasc Hm Hr Hz Hout)
    as (rL & E & HaL & HzL & HyL & HuL & _).
  rewrite E, (propagate_active rL _ HaL). cbn [Ray.z Ray.y Ray.u].
  split; [exact HuL|]. split; [|reflexivity].
  rewrite HzL, HyL, HuL. ring.
Qed.

Lemma trace_matches_matrix_witness :
  Ray.u (snd (traceRay demo (Ray.constructor (- (100)) 0 (1 # 8))))
    == snd (Matrix.apply demoMatrix
              (Ray.y (Ray.constructor (- (100)) 0 (1 # 8))
               + Ray.u (Ray.constructor (- (100)) 0 (1 # 8))
                 * (Lens.z (lens_at demo 0)
                    - Ray.z (Ray.constructor (- (100)) 0 (1 # 8))))
              (Ray.u (Ray.constructor (- (100)) 0 (1 # 8)))).
Proof.
  apply (trace_matches_matrix
           demo (Ray.constructor (- (100)) 0 (1 # 8)) demoMatrix).
  - exact demo_ascending.
  - exact demo_focal_lengths.
  - vm_compute. reflexivity.
  - reflexivity.
  - vm_compute. discriminate.
  - vm_compute. reflexivity.
Defined.

(** The point [(z_image, mag * y0)] lies on the line of every unblocked ray
    traced from [(objectZ, y0)]. *)
Lemma image_point_on_ray (this : t) (objectZ y0 u0 : Q) (m : Matrix.t) :
  ascending (lenses this) ->
  Forall (fun l => ~ Lens.f l == 0) (lenses this) ->
  calculateSystemMatrix this = Some m ->
  objectZ <= Lens.z (lens_at this 0) + tol9 ->
  tol10 <= Qabs (Matrix.C m * (Lens.z (lens_at this 0) - objectZ) + Matrix.D m) ->
  Ray.active (snd (traceRay this (Ray.constructor objectZ y0 u0))) = true ->
  exists img zi mg,
    calculateImage this objectZ = Some img /\
    z img = Fin zi /\ mag img = Fin mg /\
    Ray.y (snd (traceRay this (Ray.constructor objectZ y0 u0)))
    + Ray.u (snd (traceRay this (Ray.constructor objectZ y0 u0)))
      * (zi - Ray.z (snd (traceRay this (Ray.constructor objectZ y0 u0))))
    == mg * y0.
Proof.
  intros Hasc _ Hm Hz Hden Hout.
  pose proof (Qabs_above_tol_nonzero _ Hden) as Hnz.
  destruct (traceRay_unblocked this (Ray.constructor objectZ y0 u0) m
              Hasc Hm eq_refl Hz Hout)
    as (rL & E & HaL & HzL & HyL & HuL & _).
  unfold calculateImage.
  rewrite (calculateSystemMatrix_length this m Hm), Hm. cbv zeta.
  apply Qltb_false in Hden. rewrite Hden.
  eexists. eexists. eexists.
  split; [reflexivity|]. split; [reflexivity|]. split; [reflexivity|].
  rewrite E, (propagate_active rL _ HaL). cbn [Ray.z Ray.y Ray.u].
  rewrite HzL, HyL, HuL.
  unfold Matrix.apply. cbn [fst snd Ray.z Ray.y Ray.u Ray.constructor].
  field. exact Hnz.
Qed.



(** ** The system matrix and the cardinal points *)



Lemma two_lens_matrix (l1 l2 : Lens.t) :
  ~ Lens.f l1 == 0 -> ~ Lens.f l2 == 0 ->
  exists m,
    calculateSystemMatrix (mk [l1; l2]) = Some m /\
    Matrix.A m == 1 - (Lens.z l2 - Lens.z l1) / Lens.f l1 /\
    Matrix.B m == Lens.z l2 - Lens.z l1 /\
    Matrix.C m == - (1 / Lens.f l1 + 1 / Lens.f l2
                     - (Lens.z l2 - Lens.z l1) / (Lens.f l1 * Lens.f l2)) /\
    Matrix.D m == 1 - (Lens.z l2 - Lens.z l1) / Lens.f l2.
Proof.
  intros Hf1 Hf2. eexists. split; [reflexivity|].
  cbn [lenses length seq fold_left].
  unfold matrixBody, lens_at.
  cbn [lenses nth Nat.ltb Nat.leb Nat.sub
       Matrix.A Matrix.B Matrix.C Matrix.D Matrix.identity].
  split; [|split; [|split]]; field; auto.
Qed.

(** X13: for two lenses, in the order of the list, at the distance
    [d = z2 - z1], the system matrix is
    [(1 - d/f1, d; -(1/f1 + 1/f2 - d/(f1 f2)), 1 - d/f2)]: the power [-C] is
    the one of the two-lens formula. *)
Theorem two_lens_power (l1 l2 : Lens.t) :
  ~ Lens.f l1 == 0 -> ~ Lens.f l2 == 0 ->
  exists m,
    calculateSystemMatrix (mk [l1; l2]) = Some m /\
    Matrix.A m == 1 - (Lens.z l2 - Lens.z l1) / Lens.f l1 /\
    Matrix.B m == Lens.z l2 - Lens.z l1 /\
    - Matrix.C m == 1 / Lens.f l1 + 1 / Lens.f l2
                    - (Lens.z l2 - Lens.z l1) / (Lens.f l1 * Lens.f l2) /\
    Matrix.D m == 1 - (Lens.z l2 - Lens.z l1) / Lens.f l2.
Proof.
  intros Hf1 Hf2.
  destruct (two_lens_matrix l1 l2 Hf1 Hf2) as (m & Hm & HA & HB & HC & HD).
  exists m. repeat split; try assumption.
  rewrite HC. ring.
Qed.

Lemma two_lens_power_witness :
  exists m,
    calculateSystemMatrix (mk [lensA; lensB]) = Some m /\
    Matrix.A m == 1 - (Lens.z lensB - Lens.z lensA) / Lens.f lensA /\
    Matrix.B m == Lens.z lensB - Lens.z lensA /\
    - Matrix.C m == 1 / Lens.f lensA + 1 / Lens.f lensB
                    - (Lens.z lensB - Lens.z lensA)
                      / (Lens.f lensA * Lens.f lensB) /\
    Matrix.D m == 1 - (Lens.z lensB - Lens.z lensA) / Lens.f lensB.
Proof.
  apply (two_lens_power lensA lensB); vm_compute; discriminate.
Defined.



Example demo_cardinal_points :
  exists cp e b,
    calculateCardinalPoints demo = Some cp /\
    efl cp = Fin e /\ e == 200 /\ bfl cp = Fin b /\ b == - (100) /\
    H cp == 300 /\ H_prime cp == - (150).
Proof.
  eexists. eexists. eexists. split; [vm_compute; reflexivity|].
  repeat split.
Qed.

(** X15: for two lenses at the distance [f1 + f2], a system without power,
    [calculateCardinalPoints] reports [EFL], the back focal length and the
    back focal point as [Infinity], and the principal planes at the two
    lenses. *)
Theorem afocal_cardinal_points (l1 l2 : Lens.t) :
  ~ Lens.f l1 == 0 -> ~ Lens.f l2 == 0 ->
  Lens.z l2 - Lens.z l1 == Lens.f l1 + Lens.f l2 ->
  exists cp,
    calculateCardinalPoints (mk [l1; l2]) = Some cp /\
    efl cp = Infinity /\ bfl cp = Infinity /\ F_prime cp = Infinity /\
    H cp == Lens.z l1 /\ H_prime cp == Lens.z l2.
Proof.
  intros Hf1 Hf2 Hd.
  destruct (two_lens_matrix l1 l2 Hf1 Hf2) as (m & Hm & _ & _ & HC & _).
  assert (HC0 : Matrix.C m == 0).
  { rewrite HC, Hd. field. split; assumption. }
  unfold calculateCardinalPoints. rewrite Hm. cbv zeta.
  assert (Hc : Qltb (Qabs (Matrix.C m)) tol10 = true).
  { apply Qltb_true. rewrite HC0. reflexivity. }
  assert (Hp : Qltb (Qabs (- Matrix.C m)) tol10 = true).
  { apply Qltb_true. rewrite Qabs_opp, HC0. reflexivity. }
  rewrite Hc, Hp. cbn [num_add_l num_sub_r].
  eexists. split; [reflexivity|]. cbn [efl bfl F_prime H H_prime].
  repeat split; unfold lens_at; cbn [lenses length nth Nat.sub]; ring.
Qed.

Lemma afocal_cardinal_points_witness :
  exists cp,
    calculateCardinalPoints (mk [lensA; lensC]) = Some cp /\
    efl cp = Infinity /\ bfl cp = Infinity /\ F_prime cp = Infinity /\
    H cp == Lens.z lensA /\ H_prime cp == Lens.z lensC.
Proof.
  apply (afocal_cardinal_points lensA lensC).
  - vm_compute. discriminate.
  - vm_compute. discriminate.
  - vm_compute. reflexivity.
Defined.

(** ** Image formation *)

(** [calculateImage] where the image is finite. *)
Lemma calculateImage_finite (this : t) (objectZ : Q) (m : Matrix.t) :
  calculateSystemMatrix this = Some m ->
  tol10 <= Qabs (Matrix.C m * (Lens.z (lens_at this 0) - objectZ) + Matrix.D m) ->
  calculateImage this objectZ =
  Some (mkImage
          (Fin (Lens.z (lens_at this (length (lenses this) - 1))
                + - (Matrix.A m * (Lens.z (lens_at this 0) - objectZ)
                     + Matrix.B m)
                  / (Matrix.C m * (Lens.z (lens_at this 0) - objectZ)
                     + Matrix.D m)))
          (Fin (Matrix.A m
                + - (Matrix.A m * (Lens.z (lens_at this 0) - objectZ)
                     + Matrix.B m)
                  / (Matrix.C m * (Lens.z (lens_at this 0) - objectZ)
                     + Matrix.D m)
                  * Matrix.C m))
          (Qltb (- (Matrix.A m * (Lens.z (lens_at this 0) - objectZ)
                    + Matrix.B m)
                 / (Matrix.C m * (Lens.z (lens_at this 0) - objectZ)
                    + Matrix.D m)) 0)).
Proof.
  intros Hm Hden. unfold calculateImage.
  rewrite (calculateSystemMatrix_length this m Hm), Hm. cbv zeta.
  apply Qltb_false in Hden. now rewrite Hden.
Qed.

Lemma single_lens_matrix (f z0 h : Q) (id : nat) :
  exists m,
    calculateSystemMatrix (mk [Lens.mk f z0 h id]) = Some m /\
    Matrix.A m == 1 /\ Matrix.B m == 0 /\
    Matrix.C m == - (1 / f) /\ Matrix.D m == 1.
Proof.
  eexists. split; [reflexivity|].
  cbn [lenses length seq fold_left]. unfold matrixBody, lens_at.
  cbn [lenses nth Nat.ltb Nat.leb Lens.f
       Matrix.A Matrix.B Matrix.C Matrix.D Matrix.identity].
  unfold Qdiv. split; [|split; [|split]]; ring.
Qed.

(** The image of a single lens. *)
Lemma single_lens_image (f z0 h : Q) (id : nat) (objectZ : Q) :
  ~ f == 0 ->
  tol10 <= Qabs (1 - (z0 - objectZ) / f) ->
  exists img zi mg,
    calculateImage (mk [Lens.mk f z0 h id]) objectZ = Some img /\
    z img = Fin zi /\ mag img = Fin mg /\
    zi - z0 == f * (z0 - objectZ) / ((z0 - objectZ) - f) /\
    (zi - z0) * ((z0 - objectZ) - f) == f * (z0 - objectZ) /\
    mg == f / (f - (z0 - objectZ)) /\
    (isVirtual img = true <-> zi < z0).
Proof.
  intros Hf Htol.
  destruct (single_lens_matrix f z0 h id) as (m & Hm & HA & HB & HC & HD).
  assert (Hden : Matrix.C m * (z0 - objectZ) + Matrix.D m
                 == 1 - (z0 - objectZ) / f).
  { rewrite HC, HD. field. exact Hf. }
  assert (Hnz : ~ (z0 - objectZ) - f == 0).
  { intro H0. apply (Qabs_above_tol_nonzero _ Htol).
    setoid_replace (z0 - objectZ) with f by lra. field. exact Hf. }
  assert (Hnz' : ~ f - (z0 - objectZ) == 0) by (intro H0; apply Hnz; lra).
  rewrite (calculateImage_finite _ objectZ m Hm)
    by (unfold lens_at; cbn [lenses nth Lens.z]; now rewrite Hden).
  unfold lens_at. cbn [lenses length nth Nat.sub Lens.z].
  eexists. eexists. eexists.
  split; [reflexivity|]. cbn [z mag isVirtual].
  split; [reflexivity|]. split; [reflexivity|].
  assert (Hdi : - (Matrix.A m * (z0 - objectZ) + Matrix.B m)
                / (Matrix.C m * (z0 - objectZ) + Matrix.D m)
                == f * (z0 - objectZ) / ((z0 - objectZ) - f)).
  { rewrite Hden, HA, HB. field. repeat split; assumption. }
  split; [|split; [|split]].
  - rewrite Hdi. ring.
  - rewrite Hdi. field. repeat split; assumption.
  - rewrite Hdi, HA, HC. field. repeat split; assumption.
  - rewrite Qltb_true. split; intro Hlt; lra.
Qed.

(** X16: for a single lens, [calculateImage] obeys the thin-lens equation.
    With the object at the distance [d_o] before a lens of focal length [f]
    at [z0], and [|1 - d_o/f|] not below [1e-10], the image is at the
    distance [d_i = f d_o / (d_o - f)] after the lens, so that
    [d_i (d_o - f) = f d_o], the magnification is [f / (f - d_o)], and the
    image is reported virtual exactly when it lies before the lens. *)
Theorem thin_lens_equation (f z0 h : Q) (id : nat) (objectZ : Q) :
  ~ f == 0 ->
  tol10 <= Qabs (1 - (z0 - objectZ) / f) ->
  exists img zi mg,
    calculateImage (mk [Lens.mk f z0 h id]) objectZ = Some img /\
    z img = Fin zi /\ mag img = Fin mg /\
    zi - z0 == f * (z0 - objectZ) / ((z0 - objectZ) - f) /\
    (zi - z0) * ((z0 - objectZ) - f) == f * (z0 - objectZ) /\
    mg == f / (f - (z0 - objectZ)) /\
    (isVirtual img = true <-> zi < z0).
Proof. exact (single_lens_image f z0 h id objectZ). Qed.

Lemma thin_lens_equation_witness :
  exists img zi mg,
    calculateImage (mk [Lens.mk 100 0 50 0%nat]) (- (200)) = Some img /\
    z img = Fin zi /\ mag img = Fin mg /\
    zi - 0 == 100 * (0 - - (200)) / ((0 - - (200)) - 100) /\
    (zi - 0) * ((0 - - (200)) - 100) == 100 * (0 - - (200)) /\
    mg == 100 / (100 - (0 - - (200))) /\
    (isVirtual img = true <-> zi < 0).
Proof.
  apply (thin_lens_equation 100 0 50 0%nat (- (200))).
  - vm_compute. discriminate.
  - vm_compute. discriminate.
Defined.

(** X17: an object in the front focal plane of a single lens has its image
    at infinity: [calculateImage] reports [z = Infinity], [mag = Infinity]
    and a real image. *)
Theorem image_of_focal_plane (f z0 h : Q) (id : nat) (objectZ : Q) :
  ~ f == 0 ->
  z0 - objectZ == f ->
  calculateImage (mk [Lens.mk f z0 h id]) objectZ
  = Some (mkImage Infinity Infinity false).
Proof.
  intros Hf Hd.
  destruct (single_lens_matrix f z0 h id) as (m & Hm & _ & _ & HC & HD).
  unfold calculateImage. rewrite Hm. cbv zeta.
  unfold lens_at. cbn [lenses length nth Nat.sub Nat.eqb Lens.z].
  assert (Hden : Qltb (Qabs (Matrix.C m * (z0 - objectZ) + Matrix.D m)) tol10
                 = true).
  { apply Qltb_true.
    setoid_replace (Matrix.C m * (z0 - objectZ) + Matrix.D m) with 0.
    - reflexivity.
    - rewrite HC, HD, Hd. field. exact Hf. }
  now rewrite Hden.
Qed.

Lemma image_of_focal_plane_witness :
  calculateImage (mk [Lens.mk 100 0 50 0%nat]) (- (100))
  = Some (mkImage Infinity Infinity false).
Proof.
  apply (image_of_focal_plane 100 0 50 0%nat (- (100))).
  - vm_compute. discriminate.
  - vm_compute. reflexivity.
Defined.

(** X18: for a single converging lens ([f > 0]) [calculateImage] reports,
    for an object beyond the focal length, a real and inverted image
    ([isVirtual = false], [mag < 0]), and for an object within the focal
    length a virtual, upright and enlarged one ([isVirtual = true],
    [mag > 1]). *)
Theorem converging_lens_image (f z0 h : Q) (id : nat) (objectZ : Q) :
  0 < f ->
  tol10 <= Qabs (1 - (z0 - objectZ) / f) ->
  exists img mg,
    calculateImage (mk [Lens.mk f z0 h id]) objectZ = Some img /\
    mag img = Fin mg /\
    (f < z0 - objectZ -> isVirtual img = false /\ mg < 0) /\
    (0 < z0 - objectZ -> z0 - objectZ < f -> isVirtual img = true /\ 1 < mg).
Proof.
  intros Hf Htol.
  assert (Hf0 : ~ f == 0) by lra.
  destruct (single_lens_image f z0 h id objectZ Hf0 Htol)
    as (img & zi & mg & Himg & Hz & Hmag & _ & Hdi & Hmg & Hvirt).
  exists img, mg. split; [exact Himg|]. split; [exact Hmag|].
  assert (Hmg' : mg * (f - (z0 - objectZ)) == f).
  { rewrite Hmg. field. intro H0.
    apply (Qabs_above_tol_nonzero _ Htol).
    setoid_replace (z0 - objectZ) with f by lra. field. exact Hf0. }
  split.
  - intro Hfar. split.
    + destruct (isVirtual img) eqn:Ev; [|reflexivity].
      assert (Hlt : zi < z0) by now apply Hvirt.
      exfalso. nra.
    + nra.
  - intros Hpos Hnear. split.
    + apply Hvirt. nra.
    + nra.
Qed.

Lemma converging_lens_image_witness :
  exists img mg,
    calculateImage (mk [Lens.mk 100 0 50 0%nat]) (- (50)) = Some img /\
    mag img = Fin mg /\
    (100 < 0 - - (50) -> isVirtual img = false /\ mg < 0) /\
    (0 < 0 - - (50) -> 0 - - (50) < 100 -> isVirtual img = true /\ 1 < mg).
Proof.
  apply (converging_lens_image 100 0 50 0%nat (- (50))).
  - reflexivity.
  - vm_compute. discriminate.
Defined.



(** ** generateRays *)

Lemma fan_bounds (count i : nat) :
  (i < count)%nat -> 0 <= Main.fan count i <= 1.
Proof.
  intro Hi. unfold Main.fan.
  destruct (1 <? count)%nat eqn:E.
  - apply Nat.ltb_lt in E.
    assert (Hpos : 0 < inject_Z (Z.of_nat (count - 1))).
    { change 0 with (inject_Z 0). rewrite <- Zlt_Qlt. lia. }
    split.
    + apply Qle_shift_div_l; [exact Hpos|].
      rewrite Qmult_0_l. change 0 with (inject_Z 0). rewrite <- Zle_Qle. lia.
    + apply Qle_shift_div_r; [exact Hpos|].
      rewrite Qmult_1_l. rewrite <- Zle_Qle. lia.
  - split; discriminate.
Qed.

Lemma fan_ends (count : nat) :
  (1 < count)%nat ->
  Main.fan count 0 == 0 /\ Main.fan count (count - 1) == 1.
Proof.
  intro Hc. unfold Main.fan.
  assert (E : (1 <? count)%nat = true) by now apply Nat.ltb_lt.
  rewrite E.
  assert (Hnz : ~ inject_Z (Z.of_nat (count - 1)) == 0).
  { change 0 with (inject_Z 0). rewrite inject_Z_injective. lia. }
  split.
  - unfold Qdiv. change (inject_Z (Z.of_nat 0)) with 0. ring.
  - field. exact Hnz.
Qed.

(** The height [-h + 2 h t] that a ray of the fan aims at lies within the
    aperture. *)
Lemma fan_target_in_aperture (h t : Q) :
  0 <= h -> 0 <= t <= 1 ->
  Qabs (- (h * (95 # 100)) + 2 * (h * (95 # 100)) * t) <= h.
Proof.
  intros Hh [Ht0 Ht1]. apply Qabs_Qle_condition. split; nra.
Qed.

Section GenerateRays.

Variable tan_deg : Q -> Q.

(** X20: [generateRays] gives no ray when the system has no lens, and none
    in point mode when the object is within [1e-6] of the plane of the lens
    first in the list; otherwise it gives [rayCount] rays.  Whenever there is
    a lens it leaves the system sorted. *)
Theorem generateRays_count (system : t) (state : Main.State) :
  (lenses system = [] ->
   Main.generateRays tan_deg system state = (system, [])) /\
  (lenses system <> [] ->
   fst (Main.generateRays tan_deg system state) = sortLenses system /\
   length (snd (Main.generateRays tan_deg system state)) =
     match Main.mode (Main.object state) with
     | Main.point =>
         if Qltb (Qabs (Lens.z (lens_at system 0)
                        - Main.z (Main.object state))) (1 # 1000000)
         then 0%nat else Main.rayCount state
     | Main.infinity => Main.rayCount state
     end).
Proof.
  unfold Main.generateRays. split.
  - intros ->. reflexivity.
  - intro Hne. destruct (lenses system) as [|l ls] eqn:Hls; [congruence|].
    cbn [length Nat.eqb]. cbv zeta.
    destruct (Main.mode (Main.object state)).
    + destruct (Qltb (Qabs (Lens.z (lens_at system 0)
                            - Main.z (Main.object state))) (1 # 1000000)).
      * split; reflexivity.
      * cbn [fst snd]. now rewrite length_map, length_seq.
    + cbn [fst snd]. now rewrite length_map, length_seq.
Qed.

(** X21: in point mode every generated ray starts at the object point, and
    its straight line meets the plane of the lens first in the list at the
    height [-0.95 h + 1.9 h t] for a [t] between 0 and 1, so within the
    aperture [h] of that lens. *)
Theorem point_fan_fills_aperture (system : t) (state : Main.State) (r : Ray.t) :
  Main.mode (Main.object state) = Main.point ->
  0 <= Lens.h (lens_at system 0) ->
  In r (snd (Main.generateRays tan_deg system state)) ->
  exists i,
    (i < Main.rayCount state)%nat /\
    Ray.z r = Main.z (Main.object state) /\
    Ray.y r = Main.y (Main.object state) /\
    Ray.path r = [Point.mk (Ray.z r) (Ray.y r)] /\
    Ray.active r = true /\
    Ray.y (Ray.propagate r (Lens.z (lens_at system 0)))
      == - (Lens.h (lens_at system 0) * (95 # 100))
         + 2 * (Lens.h (lens_at system 0) * (95 # 100))
           * Main.fan (Main.rayCount state) i /\
    Qabs (Ray.y (Ray.propagate r (Lens.z (lens_at system 0))))
      <= Lens.h (lens_at system 0).
Proof.
  intros Hmode Hh. unfold Main.generateRays. rewrite Hmode. cbv zeta.
  destruct (length (lenses system) =? 0)%nat; [intros []|].
  destruct (Qltb (Qabs (Lens.z (lens_at system 0)
                        - Main.z (Main.object state))) (1 # 1000000)) eqn:E;
    [intros []|].
  cbn [snd]. intro Hin. apply in_map_iff in Hin.
  destruct Hin as (i & <- & Hi). apply in_seq in Hi.
  exists i. split; [lia|].
  split; [reflexivity|]. split; [reflexivity|]. split; [reflexivity|].
  split; [reflexivity|].
  assert (Hnz : ~ Lens.z (lens_at system 0) - Main.z (Main.object state) == 0).
  { intro H0. apply Qltb_false in E. rewrite H0 in E.
    revert E. apply Qlt_not_le. reflexivity. }
  assert (Hy : Ray.y (Ray.propagate
                        (Ray.constructor (Main.z (Main.object state))
                           (Main.y (Main.object state))
                           ((- (Lens.h (lens_at system 0) * (95 # 100))
                             - Main.y (Main.object state))
                            / (Lens.z (lens_at system 0)
                               - Main.z (Main.object state))
                            + ((Lens.h (lens_at system 0) * (95 # 100)
                                - Main.y (Main.object state))
                               / (Lens.z (lens_at system 0)
                                  - Main.z (Main.object state))
                               - (- (Lens.h (lens_at system 0) * (95 # 100))
                                  - Main.y (Main.object state))
                                 / (Lens.z (lens_at system 0)
                                    - Main.z (Main.object state)))
                              * Main.fan (Main.rayCount state) i))
                        (Lens.z (lens_at system 0)))
               == - (Lens.h (lens_at system 0) * (95 # 100))
                  + 2 * (Lens.h (lens_at system 0) * (95 # 100))
                    * Main.fan (Main.rayCount state) i).
  { rewrite propagate_active by reflexivity.
    cbn [Ray.y Ray.z Ray.u Ray.constructor]. field. exact Hnz. }
  split; [exact Hy|].
  rewrite Hy. apply fan_target_in_aperture; [exact Hh|].
  apply fan_bounds. lia.
Qed.

(** X22: in infinity mode all generated rays have the same slope and start
    200 before the lens first in the list, and the line of each meets the
    plane of that lens at the height [-0.95 h + 1.9 h t] for a [t] between 0
    and 1, so within its aperture [h]. *)
Theorem parallel_fan_fills_aperture
  (system : t) (state : Main.State) (r : Ray.t) :
  Main.mode (Main.object state) = Main.infinity ->
  0 <= Lens.h (lens_at system 0) ->
  In r (snd (Main.generateRays tan_deg system state)) ->
  exists i,
    (i < Main.rayCount state)%nat /\
    Ray.z r = Lens.z (lens_at system 0) - 200 /\
    Ray.u r = tan_deg (Main.angle (Main.object state)) /\
    Ray.path r = [Point.mk (Ray.z r) (Ray.y r)] /\
    Ray.active r = true /\
    Ray.y (Ray.propagate r (Lens.z (lens_at system 0)))
      == - (Lens.h (lens_at system 0) * (95 # 100))
         + 2 * (Lens.h (lens_at system 0) * (95 # 100))
           * Main.fan (Main.rayCount state) i /\
    Qabs (Ray.y (Ray.propagate r (Lens.z (lens_at system 0))))
      <= Lens.h (lens_at system 0).
Proof.
  intros Hmode Hh. unfold Main.generateRays. rewrite Hmode. cbv zeta.
  destruct (length (lenses system) =? 0)%nat; [intros []|].
  cbn [snd]. intro Hin. apply in_map_iff in Hin.
  destruct Hin as (i & <- & Hi). apply in_seq in Hi.
  exists i. split; [lia|].
  split; [reflexivity|]. split; [reflexivity|]. split; [reflexivity|].
  split; [reflexivity|].
  assert (Hy : forall y0 u0 zl t hh,
             y0 = - hh + 2 * hh * t - u0 * (zl - (zl - 200)) ->
             Ray.y (Ray.propagate (Ray.constructor (zl - 200) y0 u0) zl)
             == - hh + 2 * hh * t).
  { intros y0 u0 zl t hh ->. rewrite propagate_active by reflexivity.
    cbn [Ray.y Ray.z Ray.u Ray.constructor]. ring. }
  split.
  - apply Hy. reflexivity.
  - rewrite Hy by reflexivity.
    apply fan_target_in_aperture; [exact Hh|].
    apply fan_bounds. lia.
Qed.

(** X23: with more than one ray, the first ray of the point fan aims at the
    height [-0.95 h] and the last at [0.95 h] of the lens first in the list;
    a single ray aims at its centre. *)
Theorem point_fan_ends (system : t) (state : Main.State) :
  Main.mode (Main.object state) = Main.point ->
  lenses system <> [] ->
  (1 # 1000000)
    <= Qabs (Lens.z (lens_at system 0) - Main.z (Main.object state)) ->
  (0 < Main.rayCount state)%nat ->
  exists first last,
    nth_error (snd (Main.generateRays tan_deg system state)) 0 = Some first /\
    nth_error (snd (Main.generateRays tan_deg system state))
              (Main.rayCount state - 1) = Some last /\
    ((1 < Main.rayCount state)%nat ->
     Ray.y (Ray.propagate first (Lens.z (lens_at system 0)))
       == - (Lens.h (lens_at system 0) * (95 # 100)) /\
     Ray.y (Ray.propagate last (Lens.z (lens_at system 0)))
       == Lens.h (lens_at system 0) * (95 # 100)) /\
    (Main.rayCount state = 1%nat ->
     Ray.y (Ray.propagate first (Lens.z (lens_at system 0))) == 0).
Proof.
  intros Hmode Hne Hdist Hcount.
  assert (Hnz : ~ Lens.z (lens_at system 0) - Main.z (Main.object state) == 0).
  { intro H0. rewrite H0 in Hdist. revert Hdist. apply Qlt_not_le.
    reflexivity. }
  unfold Main.generateRays. rewrite Hmode. cbv zeta.
  destruct (lenses system) as [|l0 ls] eqn:Hls; [congruence|].
  cbn [length Nat.eqb].
  apply Qltb_false in Hdist. rewrite Hdist. cbn [snd].
  set (mk_ray := fun i : nat => Ray.constructor _ _ _).
  assert (Hnth : forall i, (i < Main.rayCount state)%nat ->
             nth_error (map mk_ray (seq 0 (Main.rayCount state))) i
             = Some (mk_ray i)).
  { intros i Hi. rewrite nth_error_map, nth_error_seq.
    apply Nat.ltb_lt in Hi. now rewrite Hi. }
  exists (mk_ray 0%nat), (mk_ray (Main.rayCount state - 1)%nat).
  split; [apply Hnth; lia|]. split; [apply Hnth; lia|].
  assert (Hy : forall i,
             Ray.y (Ray.propagate (mk_ray i) (Lens.z (lens_at system 0)))
             == - (Lens.h (lens_at system 0) * (95 # 100))
                + 2 * (Lens.h (lens_at system 0) * (95 # 100))
                  * Main.fan (Main.rayCount state) i).
  { intro i. unfold mk_ray. rewrite propagate_active by reflexivity.
    cbn [Ray.y Ray.z Ray.u Ray.constructor]. field. exact Hnz. }
  split.
  - intro Hmany. destruct (fan_ends _ Hmany) as [H0 H1].
    rewrite !Hy, H0, H1. split; ring.
  - intro Hone. rewrite Hy, Hone. unfold Main.fan. cbn [Nat.ltb Nat.leb].
    field.
Qed.

End GenerateRays.

Lemma generateRays_count_witness :
  length (snd (Main.generateRays tan0 demo pointState)) = 10%nat.
Proof.
  destruct (generateRays_count tan0 demo pointState) as [_ Hsome].
  destruct Hsome as [_ Hlen]; [discriminate|].
  exact Hlen.
Defined.

Lemma point_fan_fills_aperture_witness :
  Qabs (Ray.y (Ray.propagate
                 (nth 3 (snd (Main.generateRays tan0 demo pointState))
                      (Ray.constructor 0 0 0))
                 (Lens.z (lens_at demo 0))))
  <= Lens.h (lens_at demo 0).
Proof.
  destruct (point_fan_fills_aperture tan0 demo pointState
              (nth 3 (snd (Main.generateRays tan0 demo pointState))
                   (Ray.constructor 0 0 0)))
    as (i & _ & _ & _ & _ & _ & _ & Hin).
  - reflexivity.
  - vm_compute. discriminate.
  - apply nth_In. vm_compute. lia.
  - exact Hin.
Defined.

Lemma parallel_fan_fills_aperture_witness :
  Qabs (Ray.y (Ray.propagate
                 (nth 3 (snd (Main.generateRays tan0 demo parallelState))
                      (Ray.constructor 0 0 0))
                 (Lens.z (lens_at demo 0))))
  <= Lens.h (lens_at demo 0).
Proof.
  destruct (parallel_fan_fills_aperture tan0 demo parallelState
              (nth 3 (snd (Main.generateRays tan0 demo parallelState))
                   (Ray.constructor 0 0 0)))
    as (i & _ & _ & _ & _ & _ & _ & Hin).
  - reflexivity.
  - vm_compute. discriminate.
  - apply nth_In. vm_compute. lia.
  - exact Hin.
Defined.

Lemma point_fan_ends_witness :
  exists first last,
    nth_error (snd (Main.generateRays tan0 demo pointState)) 0 = Some first /\
    nth_error (snd (Main.generateRays tan0 demo pointState))
              (Main.rayCount pointState - 1) = Some last /\
    ((1 < Main.rayCount pointState)%nat ->
     Ray.y (Ray.propagate first (Lens.z (lens_at demo 0)))
       == - (Lens.h (lens_at demo 0) * (95 # 100)) /\
     Ray.y (Ray.propagate last (Lens.z (lens_at demo 0)))
       == Lens.h (lens_at demo 0) * (95 # 100)) /\
    (Main.rayCount pointState = 1%nat ->
     Ray.y (Ray.propagate first (Lens.z (lens_at demo 0))) == 0).
Proof.
  apply (point_fan_ends tan0 demo pointState).
  - reflexivity.
  - discriminate.
  - vm_compute. discriminate.
  - vm_compute. lia.
Defined.

(** ** update *)

Lemma traceRay_snd_sorted (this : t) (ray : Ray.t) :
  snd (traceRay (sortLenses this) ray) = snd (traceRay this ray).
Proof.
  rewrite !traceRay_snd. rewrite sortLenses_lenses.
  now rewrite (sort_ascending_id _ (sort_ascending (lenses this))).
Qed.

Lemma sortLenses_idempotent (this : t) :
  sortLenses (sortLenses this) = sortLenses this.
Proof.
  unfold sortLenses. cbn [lenses].
  now rewrite (sort_ascending_id _ (sort_ascending (lenses this))).
Qed.

(** Tracing the rays one after the other: the system is sorted by the first
    trace, and every ray is traced through the sorted lenses. *)
Lemma traceAll_fold (rays : list Ray.t) :
  forall (this : t) (acc : list Ray.t),
    fold_left
      (fun (acc : t * list Ray.t) ray =>
         let (system', ray') := traceRay (fst acc) ray in
         (system', snd acc ++ [ray']))
      rays (this, acc)
    = (match rays with [] => this | _ :: _ => sortLenses this end,
       acc ++ map (fun ray => snd (traceRay this ray)) rays).
Proof.
  induction rays as [|r rays IH]; intros this acc.
  - cbn. now rewrite app_nil_r.
  - cbn [fold_left fst snd map].
    replace (traceRay this r) with (sortLenses this, snd (traceRay this r))
      by reflexivity.
    rewrite IH, <- app_assoc. cbn [app]. f_equal.
    + destruct rays; [reflexivity|apply sortLenses_idempotent].
    + f_equal. f_equal. apply map_ext. intro ray. apply traceRay_snd_sorted.
Qed.

Lemma traceAll_spec (this : t) (rays : list Ray.t) :
  Main.traceAll this rays
  = (match rays with [] => this | _ :: _ => sortLenses this end,
     map (fun ray => snd (traceRay this ray)) rays).
Proof. unfold Main.traceAll. now rewrite traceAll_fold. Qed.

Lemma update_spec (tan_deg : Q -> Q) (system : t) (state : Main.State) :
  lenses system <> [] ->
  Main.update tan_deg system state
  = Main.mkUpdated
      (sortLenses system)
      (Main.mkState (Main.object state) (Main.rayCount state)
         (map (fun ray => snd (traceRay (sortLenses system) ray))
              (snd (Main.generateRays tan_deg system state))))
      (calculateCardinalPoints (sortLenses system))
      (calculateImage (sortLenses system) (Main.z (Main.object state))).
Proof.
  intro Hne. unfold Main.update.
  destruct (generateRays_count tan_deg system state) as [_ Hg].
  destruct (Hg Hne) as [Hsys _].
  destruct (Main.generateRays tan_deg system state) as [system1 generated].
  cbn [fst snd] in *. subst system1.
  rewrite traceAll_spec.
  assert (E : match generated with
              | [] => sortLenses system
              | _ :: _ => sortLenses (sortLenses system)
              end = sortLenses system).
  { destruct generated; [reflexivity|apply sortLenses_idempotent]. }
  now rewrite E.
Qed.

(** X24: [update] on a system without lenses traces no ray and hands on
    absent results; on any other system it leaves the lenses sorted, traces
    every generated ray through the sorted lenses, and computes the cardinal
    points and the image from the sorted list, whatever the order was. *)
Theorem update_sorts_first (tan_deg : Q -> Q) (system : t) (state : Main.State) :
  Main.object (Main.state' (Main.update tan_deg system state))
    = Main.object state /\
  (lenses system = [] ->
   Main.system' (Main.update tan_deg system state) = system /\
   Main.rays (Main.state' (Main.update tan_deg system state)) = [] /\
   Main.results (Main.update tan_deg system state) = None /\
   Main.imageInfo (Main.update tan_deg system state) = None) /\
  (lenses system <> [] ->
   Main.system' (Main.update tan_deg system state) = sortLenses system /\
   ascending (lenses (Main.system' (Main.update tan_deg system state))) /\
   Main.rays (Main.state' (Main.update tan_deg system state))
     = map (fun ray => snd (traceRay (sortLenses system) ray))
           (snd (Main.generateRays tan_deg system state)) /\
   Main.results (Main.update tan_deg system state)
     = calculateCardinalPoints (sortLenses system) /\
   Main.imageInfo (Main.update tan_deg system state)
     = calculateImage (sortLenses system) (Main.z (Main.object state))).
Proof.
  split; [|split].
  - unfold Main.update.
    destruct (Main.generateRays tan_deg system state) as [s1 g].
    now destruct (Main.traceAll s1 g).
  - intro Hnil. unfold Main.update, Main.generateRays. rewrite Hnil.
    cbn. unfold calculateCardinalPoints, calculateSystemMatrix, calculateImage.
    rewrite Hnil. cbn. tauto.
  - intro Hne. rewrite (update_spec tan_deg system state Hne).
    cbn [Main.system' Main.state' Main.rays Main.results Main.imageInfo].
    repeat split. apply sort_ascending.
Qed.

Lemma update_sorts_first_witness :
  Main.system' (Main.update tan0 (mk [lensB; lensA]) pointState) = demo.
Proof.
  destruct (update_sorts_first tan0 (mk [lensB; lensA]) pointState)
    as (_ & _ & Hsome).
  destruct Hsome as (Hsys & _); [discriminate|].
  rewrite Hsys. reflexivity.
Defined.

Lemma generateRays_point_start
  (tan_deg : Q -> Q) (system : t) (state : Main.State) (g : Ray.t) :
  Main.mode (Main.object state) = Main.point ->
  In g (snd (Main.generateRays tan_deg system state)) ->
  exists u, g = Ray.constructor (Main.z (Main.object state))
                                (Main.y (Main.object state)) u.
Proof.
  intros Hmode. unfold Main.generateRays. rewrite Hmode. cbv zeta.
  destruct (length (lenses system) =? 0)%nat; [intros []|].
  destruct (Qltb _ _); [intros []|].
  cbn [snd]. intro Hin. apply in_map_iff in Hin.
  destruct Hin as (i & <- & _). eexists. reflexivity.
Qed.

(** X25: what [update] draws agrees with what it reports.  In point mode,
    with the object at or before every lens and a finite image, each ray
    that [update] leaves active lies, after the last lens, on the line
    through the image point [(z, mag * y_object)] of the [imageInfo] that the
    same [update] hands on. *)
Theorem update_rays_meet_at_image
  (tan_deg : Q -> Q) (system : t) (state : Main.State) (m : Matrix.t)
  (r : Ray.t) :
  Main.mode (Main.object state) = Main.point ->
  Forall (fun l => ~ Lens.f l == 0) (lenses system) ->
  Forall (fun l => Main.z (Main.object state) <= Lens.z l) (lenses system) ->
  calculateSystemMatrix (sortLenses system) = Some m ->
  tol10 <= Qabs (Matrix.C m * (Lens.z (lens_at (sortLenses system) 0)
                               - Main.z (Main.object state)) + Matrix.D m) ->
  In r (Main.rays (Main.state' (Main.update tan_deg system state))) ->
  Ray.active r = true ->
  exists img zi mg,
    Main.imageInfo (Main.update tan_deg system state) = Some img /\
    z img = Fin zi /\ mag img = Fin mg /\
    Ray.y r + Ray.u r * (zi - Ray.z r) == mg * Main.y (Main.object state).
Proof.
  intros Hmode Hf Hleft Hm Hden Hin Hact.
  assert (Hne : lenses system <> []).
  { intro Hnil. unfold calculateSystemMatrix, sortLenses in Hm.
    rewrite Hnil in Hm. discriminate. }
  rewrite (update_spec tan_deg system state Hne) in *.
  cbn [Main.state' Main.rays Main.imageInfo] in *.
  apply in_map_iff in Hin. destruct Hin as (g & <- & Hg).
  destruct (generateRays_point_start tan_deg system state g Hmode Hg)
    as [u0 ->].
  pose proof (sort_perm (lenses system)) as Hperm.
  apply (image_point_on_ray (sortLenses system) _ _ u0 m).
  - apply sort_ascending.
  - exact (Permutation_Forall (Permutation_sym Hperm) Hf).
  - exact Hm.
  - assert (Hin0 : In (lens_at (sortLenses system) 0) (lenses system)).
    { apply (Permutation_in _ Hperm). unfold lens_at.
      rewrite sortLenses_lenses. apply nth_In.
      rewrite (Permutation_length Hperm).
      destruct (lenses system); [congruence|simpl; lia]. }
    rewrite Forall_forall in Hleft. specialize (Hleft _ Hin0).
    assert (Htol : 0 < tol9) by reflexivity. lra.
  - exact Hden.
  - exact Hact.
Qed.

Lemma update_rays_meet_at_image_witness :
  exists img zi mg,
    Main.imageInfo (Main.update tan0 demo pointState) = Some img /\
    z img = Fin zi /\ mag img = Fin mg /\
    Ray.y (nth 3 (Main.rays (Main.state' (Main.update tan0 demo pointState)))
               (Ray.constructor 0 0 0))
    + Ray.u (nth 3 (Main.rays (Main.state' (Main.update tan0 demo pointState)))
                 (Ray.constructor 0 0 0))
      * (zi - Ray.z (nth 3 (Main.rays (Main.state'
                                         (Main.update tan0 demo pointState)))
                         (Ray.constructor 0 0 0)))
    == mg * Main.y (Main.object pointState).
Proof.
  apply (update_rays_meet_at_image tan0 demo pointState demoMatrix).
  - reflexivity.
  - exact demo_focal_lengths.
  - repeat (constructor; try (vm_compute; discriminate)).
  - vm_compute. reflexivity.
  - vm_compute. discriminate.
  - apply nth_In. vm_compute. lia.
  - vm_compute. reflexivity.
Defined.

(** ** The add-lens button *)

Lemma ascending_snoc (ls : list Lens.t) (new : Lens.t) :
  ascending ls ->
  Forall (fun l => Lens.z l <= Lens.z new) ls ->
  ascending (ls ++ [new]).
Proof.
  unfold ascending. induction 1 as [|l ls Hs IH Hl]; intro Hall.
  - cbn. repeat constructor.
  - apply Forall_cons_iff in Hall. destruct Hall as [Hnew Hall].
    cbn [app]. constructor; [now apply IH|].
    apply Forall_app. split; [exact Hl|]. now constructor.
Qed.

Lemma update_system_lenses (tan_deg : Q -> Q) (system : t) (state : Main.State) :
  lenses (Main.system' (Main.update tan_deg system state))
  = sort (lenses system).
Proof.
  destruct (lenses system) as [|l ls] eqn:Hls.
  - unfold Main.update, Main.generateRays. rewrite Hls. cbn. exact Hls.
  - rewrite update_spec by congruence. cbn [Main.system'].
    now rewrite sortLenses_lenses, Hls.
Qed.

(** X26: the add-lens button never takes the system beyond five lenses: with
    five or more it changes nothing.  With fewer, on lenses in ascending
    order, it appends one lens of focal length 100 and aperture 50, 50 past
    the last lens, or at 0 when there is none, and the system [update] leaves
    is in ascending order again. *)
Theorem addLensClick_appends
  (tan_deg : Q -> Q) (system : t) (state : Main.State) (id : nat) :
  ((5 <= length (lenses system))%nat ->
   Main.addLensClick tan_deg system state id = (system, state)) /\
  ((length (lenses system) <= 5)%nat ->
   (length (lenses (fst (Main.addLensClick tan_deg system state id))) <= 5)%nat) /\
  ((length (lenses system) < 5)%nat ->
   ascending (lenses system) ->
   lenses (fst (Main.addLensClick tan_deg system state id))
   = lenses system
       ++ [Lens.mk 100
             (match lenses system with
              | [] => 0
              | _ :: _ =>
                  Lens.z (lens_at system (length (lenses system) - 1)) + 50
              end) 50 id]).
Proof.
  assert (Hsys : (length (lenses system) < 5)%nat ->
            forall newZ,
              lenses (fst (let system1 := fst (addLens system 100 newZ None id) in
                           let updated := Main.update tan_deg system1 state in
                           (Main.system' updated, Main.state' updated)))
              = sort (lenses system ++ [Lens.mk 100 newZ 50 id])).
  { intros _ newZ. cbv zeta. cbn [fst].
    rewrite update_system_lenses. unfold addLens. cbn [fst].
    rewrite sortLenses_lenses. cbn [lenses].
    apply sort_ascending_id, sort_ascending. }
  unfold Main.addLensClick.
  split; [|split].
  - intro Hfull. apply Nat.leb_le in Hfull. now rewrite Hfull.
  - intro Hle. destruct (5 <=? length (lenses system))%nat eqn:E.
    + exact Hle.
    + apply Nat.leb_gt in E. rewrite (Hsys E).
      rewrite (Permutation_length (sort_perm _)), length_app. simpl. lia.
  - intros Hlt Hasc.
    assert (E : (5 <=? length (lenses system))%nat = false)
      by now apply Nat.leb_gt.
    rewrite E, (Hsys Hlt).
    destruct (lenses system) as [|l0 ls] eqn:Hls.
    + reflexivity.
    + assert (Hlast : nth_error (l0 :: ls) (length (l0 :: ls) - 1)
                      = Some (lens_at system (length (l0 :: ls) - 1))).
      { unfold lens_at. rewrite Hls. apply nth_error_nth'. simpl. lia. }
      rewrite Hlast. apply sort_ascending_id.
      apply ascending_snoc; [exact Hasc|].
      apply Forall_forall. intros l Hin. cbn [Lens.z].
      pose proof (ascending_last_max (l0 :: ls) l Hasc Hin) as Hmax.
      unfold lens_at. rewrite Hls. lra.
Qed.

Lemma addLensClick_appends_witness :
  lenses (fst (Main.addLensClick tan0 demo pointState 2))
  = lenses demo ++ [Lens.mk 100 (150 + 50) 50 2].
Proof.
  destruct (addLensClick_appends tan0 demo pointState 2) as (_ & _ & Happ).
  apply Happ.
  - vm_compute. lia.
  - exact demo_ascending.
Defined.

(** ** The viewport *)

(** X27: with a scale other than zero, [fromCanvas] and [toCanvas] are
    inverse to each other. *)
Theorem canvas_round_trip (this : Renderer.t) (a b : Q) :
  ~ Renderer.scale this == 0 ->
  Point.z (Renderer.fromCanvas this
             (Renderer.x (Renderer.toCanvas this a b))
             (Renderer.y (Renderer.toCanvas this a b))) == a /\
  Point.y (Renderer.fromCanvas this
             (Renderer.x (Renderer.toCanvas this a b))
             (Renderer.y (Renderer.toCanvas this a b))) == b /\
  Renderer.x (Renderer.toCanvas this
                (Point.z (Renderer.fromCanvas this a b))
                (Point.y (Renderer.fromCanvas this a b))) == a /\
  Renderer.y (Renderer.toCanvas this
                (Point.z (Renderer.fromCanvas this a b))
                (Point.y (Renderer.fromCanvas this a b))) == b.
Proof.
  intro Hs. unfold Renderer.fromCanvas, Renderer.toCanvas.
  cbn [Renderer.x Renderer.y Point.z Point.y].
  split; [|split; [|split]]; field; exact Hs.
Qed.

Lemma canvas_round_trip_witness :
  Point.z (Renderer.fromCanvas viewport
             (Renderer.x (Renderer.toCanvas viewport (- (200)) 10))
             (Renderer.y (Renderer.toCanvas viewport (- (200)) 10)))
  == - (200).
Proof.
  apply (canvas_round_trip viewport (- (200)) 10). vm_compute. discriminate.
Defined.

Lemma wheel_positive (renderer : Renderer.t) (deltaY : Q) :
  0 < Renderer.scale renderer ->
  0 < Renderer.scale (Main.wheel renderer deltaY) /\
  Renderer.offsetX (Main.wheel renderer deltaY) = Renderer.offsetX renderer /\
  Renderer.offsetY (Main.wheel renderer deltaY) = Renderer.offsetY renderer.
Proof.
  intro Hs. unfold Main.wheel. cbv zeta.
  destruct (Qltb deltaY 0); cbn [Renderer.scale Renderer.offsetX Renderer.offsetY];
    (split; [|split; reflexivity]).
  - apply Qmult_lt_0_compat; [exact Hs|reflexivity].
  - apply Qmult_lt_0_compat; [exact Hs|reflexivity].
Qed.

(** X28: zooming never makes the viewport degenerate: after every sequence
    of wheel events on a viewport of positive scale the scale is positive
    and the offsets are the ones before. *)
Theorem wheel_keeps_scale_positive (deltas : list Q) (renderer : Renderer.t) :
  0 < Renderer.scale renderer ->
  0 < Renderer.scale (fold_left Main.wheel deltas renderer) /\
  Renderer.offsetX (fold_left Main.wheel deltas renderer)
    = Renderer.offsetX renderer /\
  Renderer.offsetY (fold_left Main.wheel deltas renderer)
    = Renderer.offsetY renderer.
Proof.
  revert renderer. induction deltas as [|d deltas IH]; intros renderer Hs.
  - cbn. tauto.
  - cbn [fold_left].
    destruct (wheel_positive renderer d Hs) as (Hs' & Hx & Hy).
    destruct (IH _ Hs') as (Hs'' & Hx' & Hy').
    rewrite Hx', Hy', Hx, Hy. tauto.
Qed.

Lemma wheel_keeps_scale_positive_witness :
  0 < Renderer.scale (fold_left Main.wheel [- (1); 1; 1] viewport).
Proof.
  apply (wheel_keeps_scale_positive [- (1); 1; 1] viewport). reflexivity.
Defined.

(** X29: zooming in and zooming out do not undo each other: one wheel event
    in each direction, in either order, leaves the scale at 99/100 of what
    it was. *)
Theorem wheel_in_out (renderer : Renderer.t) (d1 d2 : Q) :
  (d1 < 0 /\ 0 <= d2) \/ (0 <= d1 /\ d2 < 0) ->
  Renderer.scale (Main.wheel (Main.wheel renderer d1) d2)
  == Renderer.scale renderer * (99 # 100).
Proof.
  intros [[H1 H2]|[H1 H2]]; unfold Main.wheel; cbv zeta.
  - apply Qltb_true in H1. rewrite H1.
    assert (E : Qltb d2 0 = false) by now apply Qltb_false.
    rewrite E. cbn [Renderer.scale]. ring.
  - apply Qltb_true in H2.
    assert (E : Qltb d1 0 = false) by now apply Qltb_false.
    rewrite E, H2. cbn [Renderer.scale]. ring.
Qed.

Lemma wheel_in_out_witness :
  Renderer.scale (Main.wheel (Main.wheel viewport (- (1))) 1)
  == Renderer.scale viewport * (99 # 100).
Proof.
  apply (wheel_in_out viewport (- (1)) 1).
  left. split; [reflexivity|discriminate].
Defined.
